(** * buffpool: a fixed-capacity pool of reusable buffers (buf.go)

    Shallow embedding of the Go package [buffpool] and proofs about its
    buffer/pool state machine.

    Modelling choices, all taken from the source:
    - Go [int] and [int32] values are [Z]; the code performs no arithmetic on
      them that could wrap (only comparisons and the loop counter bounded by
      [bufCount]).
    - A [*Buffer[T]] is an address (index) into a heap of buffer structs;
      allocation appends to the heap, so pointer identity and aliasing are
      preserved (a consumer keeps its pointer after [Release] or [Reset]).
    - One pool object exists in the modelled world, so the back-reference
      [b.pool] of every buffer is that pool and [b.pool.put(b)] is [put].
    - A buffered channel is a record with its capacity, its FIFO queue and
      its closed flag; [None] is the nil channel.  The Go rules for nil,
      full, empty and closed channels are written out in [Chan].
    - A call either returns, panics, or blocks forever; the state reached
      at a panic is kept, since a Go caller can [recover] and go on.
    - The mutex [mu] is taken and released (by [defer]) inside each of
      [Init], [Reset] and [Release], so between calls it is always free; it
      is left out of the sequential state.
    - Allocation never fails for lack of memory. *)

From Stdlib Require Import ZArith String Bool Lia.
From stdpp Require Import base tactics option list.

Open Scope Z_scope.

(** ** Channels of buffer pointers *)

Module Chan.

Record t := mk { cap : Z; queue : list nat; closed : bool }.

(** [make(chan *Buffer[T], n)] *)
Definition make (n : Z) : t := mk n [] false.

(** [len(c)]: 0 for the nil channel. *)
Definition len (c : option t) : Z :=
  match c with
  | None => 0
  | Some ch => Z.of_nat (List.length (queue ch))
  end.

Inductive send_result :=
| Sent (ch : t)        (* the value was enqueued *)
| SendNotReady         (* nil channel, or buffer full and no receiver *)
| SendOnClosed.        (* run-time panic *)

(** One attempt at [c <- a]. *)
Definition send (c : option t) (a : nat) : send_result :=
  match c with
  | None => SendNotReady
  | Some ch =>
      if closed ch then SendOnClosed
      else if Z.of_nat (List.length (queue ch)) <? cap ch
           then Sent (mk (cap ch) (queue ch ++ [a]) false)
           else SendNotReady
  end.

Inductive recv_result :=
| Received (a : nat) (ch : t)
| RecvZero             (* closed and drained: the zero value, nil *)
| RecvNotReady.        (* nil channel, or open and empty *)

(** One attempt at [<-c]. *)
Definition recv (c : option t) : recv_result :=
  match c with
  | None => RecvNotReady
  | Some ch =>
      match queue ch with
      | a :: q => Received a (mk (cap ch) q (closed ch))
      | [] => if closed ch then RecvZero else RecvNotReady
      end
  end.

(** [for len(c) > 0 { <-c }]: one receive per queued element. *)
Fixpoint drain_queue (q : list nat) : list nat :=
  match q with
  | [] => []
  | _ :: q' => drain_queue q'
  end.

Definition drain (c : option t) : option t :=
  match c with
  | None => None
  | Some ch => Some (mk (cap ch) (drain_queue (queue ch)) (closed ch))
  end.

End Chan.

(** ** The Buffer struct *)

Module Buffer.
Section Buffer.
Context {T : Type}.

(** [data] was made by [make([]T, n)], so [cap(data) = len(data)]. The
    field [pool] is the one pool of the model. *)
Record t := mk { data : list T; length : Z; inUse : Z }.

Definition capacity (b : t) : Z := Z.of_nat (List.length (data b)).

Definition SetLength (len : Z) (b : t) : t :=
  let len := if len >? capacity b then capacity b else len in
  mk (data b) len (inUse b).

Definition GetLength (b : t) : Z := length b.

Definition GetFullData (b : t) : list T := data b.

(** [b.data[:b.length]]; the slice expression panics unless
    [0 <= length <= cap(data)], which is [None] here. *)
Definition GetValidData (b : t) : option (list T) :=
  if (0 <=? length b) && (length b <=? capacity b)
  then Some (take (Z.to_nat (length b)) (data b))
  else None.

Definition set_inUse (v : Z) (b : t) : t := mk (data b) (length b) v.

End Buffer.
Arguments t : clear implicits.
End Buffer.

(** ** The Pool struct *)

Module Pool.

Record t := mk {
  buffers : option Chan.t;
  bufSize : Z;
  bufCount : Z;
  isInitialized : bool;
  isReleased : Z
}.

Definition set_buffers (c : option Chan.t) (p : t) : t :=
  mk c (bufSize p) (bufCount p) (isInitialized p) (isReleased p).
Definition set_bufSize (v : Z) (p : t) : t :=
  mk (buffers p) v (bufCount p) (isInitialized p) (isReleased p).
Definition set_bufCount (v : Z) (p : t) : t :=
  mk (buffers p) (bufSize p) v (isInitialized p) (isReleased p).
Definition set_isInitialized (v : bool) (p : t) : t :=
  mk (buffers p) (bufSize p) (bufCount p) v (isReleased p).
Definition set_isReleased (v : Z) (p : t) : t :=
  mk (buffers p) (bufSize p) (bufCount p) (isInitialized p) v.

End Pool.

(** ** The length-prefixed byte buffers of package simplebuf

    A [[]byte] is the list of its bytes, each a [Z] in [[0, 256)]; a call
    that writes into the slice returns the new contents.  Go's [int] and
    [uint] are taken 64 bits wide, with their wrap-around written out. *)

Module SimpleBuf.

Definition sizeOfDescription : Z := 4.

Definition is_byte (x : Z) : Prop := 0 <= x < 256.

(** [a + b] on [int]. *)
Definition int_add (a b : Z) : Z := (a + b + 2 ^ 63) mod 2 ^ 64 - 2 ^ 63.

(** A [uint] result. *)
Definition uint (x : Z) : Z := x mod 2 ^ 64.

(** [byte(x)] for [x : uint]. *)
Definition to_byte (x : Z) : Z := Z.land x 255.

(** [make([]byte, n)]; [None] is the panic on a negative length. *)
Definition make_bytes (n : Z) : option (list Z) :=
  if n <? 0 then None else Some (replicate (Z.to_nat n) 0).

(** The loop of [InitBufferList], [n] iterations to go. *)
Fixpoint InitBufferList_loop (n : nat) (bufferSize : Z)
    (bufferList : list (list Z)) : option (list (list Z)) :=
  match n with
  | O => Some bufferList
  | S n' =>
      match make_bytes (int_add sizeOfDescription bufferSize) with
      | None => None
      | Some b => InitBufferList_loop n' bufferSize (bufferList ++ [b])
      end
  end.

Definition InitBufferList (bufferSize bufferCount : Z)
  : option (list (list Z)) :=
  InitBufferList_loop (Z.to_nat bufferCount) bufferSize [].

(** [buf[i] = v]; [None] is the panic on an index out of range. *)
Definition set_index (buf : list Z) (i : nat) (v : Z) : option (list Z) :=
  if (i <? List.length buf)%nat then Some (<[i := v]> buf) else None.

(** [SetLength(buf, len)]: the contents of the slice afterwards, and
    whether the call returned ([true]) or panicked on an index ([false]);
    the bytes stored before a panic stay stored. *)
Definition SetLength (buf : list Z) (len : Z) : list Z * bool :=
  match set_index buf 0 (to_byte len) with
  | None => (buf, false)
  | Some buf0 =>
      match set_index buf0 1 (to_byte (Z.shiftr len 8)) with
      | None => (buf0, false)
      | Some buf1 =>
          match set_index buf1 2 (to_byte (Z.shiftr len 16)) with
          | None => (buf1, false)
          | Some buf2 =>
              match set_index buf2 3 (to_byte (Z.shiftr len 24)) with
              | None => (buf2, false)
              | Some buf3 => (buf3, true)
              end
          end
      end
  end.

(** [GetLength(buf)]; [None] is the panic on an index out of range. *)
Definition GetLength (buf : list Z) : option Z :=
  match buf with
  | b0 :: b1 :: b2 :: b3 :: _ =>
      Some (uint (uint (uint (b0 + uint (Z.shiftl b1 8))
                        + uint (Z.shiftl b2 16))
                  + uint (Z.shiftl b3 24)))
  | _ => None
  end.

(** [GetDataSlice(buf)], that is [buf[sizeOfDescription:]]; [None] is the
    panic on the slice bounds. *)
Definition GetDataSlice (buf : list Z) : option (list Z) :=
  if (4 <=? List.length buf)%nat then Some (drop 4 buf) else None.

End SimpleBuf.

(** ** Program state and the monad of calls *)

Section Model.
Context {T : Type}.

(** [zero] is the zero value of [T], with which [make([]T, n)] fills a
    new slice. *)
Variable zero : T.

Record State := mkState {
  heap : list (Buffer.t T);   (* every Buffer allocated so far *)
  pool : Pool.t;               (* the Pool struct *)
  forwarders : nat             (* goroutines started by BufferChan *)
}.

Inductive outcome (A : Type) :=
| Ok (s : State) (a : A)          (* the call returned [a] *)
| Panic (msg : string) (s : State) (* the call panicked in state [s] *)
| Block (s : State).              (* the call blocks forever in [s] *)
#[local] Arguments Ok {A} s a.
#[local] Arguments Panic {A} msg s.
#[local] Arguments Block {A} s.

Definition state_of {A} (o : outcome A) : State :=
  match o with
  | Ok s _ => s
  | Panic _ s => s
  | Block s => s
  end.

Definition M (A : Type) : Type := State -> outcome A.

Definition ret {A} (a : A) : M A := fun s => Ok s a.

Definition bind {A B} (m : M A) (k : A -> M B) : M B :=
  fun s =>
    match m s with
    | Ok s' a => k a s'
    | Panic msg s' => Panic msg s'
    | Block s' => Block s'
    end.

Local Notation "x <- m ;; k" := (bind m (fun x => k))
  (at level 100, m at next level, right associativity).
Local Notation "m ;; k" := (bind m (fun _ => k))
  (at level 100, right associativity).

Definition panic {A} (msg : string) : M A := fun s => Panic msg s.

Definition block {A} : M A := fun s => Block s.

Definition get_pool : M Pool.t := fun s => Ok s (pool s).

Definition modify_pool (f : Pool.t -> Pool.t) : M unit :=
  fun s => Ok (mkState (heap s) (f (pool s)) (forwarders s)) tt.

(** Dereferencing a buffer pointer; an address outside the heap stands for
    the nil pointer. *)
Definition load (a : nat) : M (Buffer.t T) :=
  fun s =>
    match heap s !! a with
    | Some b => Ok s b
    | None => Panic "invalid memory address or nil pointer dereference" s
    end.

Definition store (a : nat) (b : Buffer.t T) : M unit :=
  fun s => Ok (mkState (<[a:=b]> (heap s)) (pool s) (forwarders s)) tt.

Definition alloc (b : Buffer.t T) : M nat :=
  fun s => Ok (mkState (heap s ++ [b]) (pool s) (forwarders s))
              (List.length (heap s)).

(** [&Buffer[T]{data: make([]T, size), length: 0, pool: p, inUse: 0}] *)
Definition newBuffer (size : Z) : M nat :=
  if size <? 0 then panic "makeslice: len out of range"
  else alloc (Buffer.mk (replicate (Z.to_nat size) zero) 0 0).

(** The send statement [p.buffers <- a]. *)
Definition chan_send (a : nat) : M unit :=
  p <- get_pool ;;
  match Chan.send (Pool.buffers p) a with
  | Chan.Sent ch => modify_pool (Pool.set_buffers (Some ch))
  | Chan.SendNotReady => block
  | Chan.SendOnClosed => panic "send on closed channel"
  end.

(** [close(p.buffers)] *)
Definition chan_close : M unit :=
  p <- get_pool ;;
  match Pool.buffers p with
  | None => panic "close of nil channel"
  | Some ch =>
      if Chan.closed ch then panic "close of closed channel"
      else modify_pool
             (Pool.set_buffers (Some (Chan.mk (Chan.cap ch) (Chan.queue ch) true)))
  end.

(** [for len(p.buffers) > 0 { <-p.buffers }] *)
Definition chan_drain : M unit :=
  modify_pool (fun p => Pool.set_buffers (Chan.drain (Pool.buffers p)) p).

(** [for i := 0; i < n; i++ { p.buffers <- &Buffer[T]{...} }] *)
Fixpoint fill (n : nat) (size : Z) : M unit :=
  match n with
  | O => ret tt
  | S n' => a <- newBuffer size ;; chan_send a ;; fill n' size
  end.

(** ** The operations of buf.go *)

(** [NewPool[T]()]: the fresh pool, with nothing allocated yet. *)
Definition NewPool : State :=
  mkState [] (Pool.mk None 0 0 false 0) O.

(** [Pool.Init]; the result is the returned [error], [None] for nil. *)
Definition Init (bufCount bufSize : Z) : M (option string) :=
  p <- get_pool ;;
  if Pool.isReleased p =? 1 then ret (Some "pool has been released"%string)
  else if (bufCount <=? 0) || (bufSize <=? 0)
  then ret (Some "invalid buffer count or size"%string)
  else
    modify_pool (Pool.set_bufCount bufCount) ;;
    modify_pool (Pool.set_bufSize bufSize) ;;
    modify_pool (Pool.set_buffers (Some (Chan.make bufCount))) ;;
    fill (Z.to_nat bufCount) bufSize ;;
    modify_pool (Pool.set_isInitialized true) ;;
    ret None.

(** [Pool.BufferChan]: nil for a released pool; otherwise a new
    unbuffered channel, named by the number of the goroutine that will feed
    it.  The goroutine is only recorded as started: its interleaving with
    the caller is outside this sequential model. *)
Definition BufferChan : M (option nat) :=
  p <- get_pool ;;
  if Pool.isReleased p =? 1 then ret None
  else fun s =>
    Ok (mkState (heap s) (pool s) (S (forwarders s))) (Some (forwarders s)).

(** [Pool.put] *)
Definition put (a : nat) : M unit :=
  p <- get_pool ;;
  if Pool.isReleased p =? 1 then ret tt
  else
    b <- load a ;;
    if Buffer.inUse b =? 0 then
      match Chan.send (Pool.buffers p) a with
      | Chan.Sent ch => modify_pool (Pool.set_buffers (Some ch))
      | Chan.SendNotReady =>
          panic "Attempting to return a buffer to a full pool"
      | Chan.SendOnClosed => panic "send on closed channel"
      end
    else panic "Attempting to return a buffer that is still in use".

(** [Pool.Acquire], with fuel for its recursive call; [(nil, false)] is
    [None] and [(buf, true)] is [Some buf].  Out of fuel is the outer
    [None]. *)
Fixpoint Acquire_rec (fuel : nat) (s : State)
  : option (outcome (option nat)) :=
  match fuel with
  | O => None
  | S fuel' =>
      if Pool.isReleased (pool s) =? 1 then Some (Ok s None)
      else
        match Chan.recv (Pool.buffers (pool s)) with
        | Chan.Received a ch =>
            let s1 := mkState (heap s) (Pool.set_buffers (Some ch) (pool s))
                              (forwarders s) in
            match load a s1 with
            | Ok _ b =>
                if Buffer.inUse b =? 0
                then Some (bind (store a (Buffer.set_inUse 1 b))
                                (fun _ => ret (Some a)) s1)
                else
                  (* put it back and try again *)
                  match put a s1 with
                  | Ok s2 _ => Acquire_rec fuel' s2
                  | Panic msg s2 => Some (Panic msg s2)
                  | Block s2 => Some (Block s2)
                  end
            | Panic msg s2 => Some (Panic msg s2)
            | Block s2 => Some (Block s2)
            end
        | Chan.RecvZero =>
            (* buf is nil: the CAS dereferences it *)
            Some (Panic "invalid memory address or nil pointer dereference" s)
        | Chan.RecvNotReady => Some (Ok s None)
        end
  end.

(** The recursive call is never reached when calls do not interleave (see
    [Acquire_rec_fuel]), so two units of fuel are already more than enough. *)
Definition Acquire : M (option nat) :=
  fun s =>
    match Acquire_rec 2 s with
    | Some o => o
    | None => Block s
    end.

(** [Pool.Reset] *)
Definition Reset : M unit :=
  p <- get_pool ;;
  if Pool.isReleased p =? 1 then ret tt
  else if negb (Pool.isInitialized p) then ret tt
  else
    chan_drain ;;
    fill (Z.to_nat (Pool.bufCount p)) (Pool.bufSize p).

(** [Pool.Available] *)
Definition Available (s : State) : Z :=
  if Pool.isReleased (pool s) =? 1 then 0
  else Chan.len (Pool.buffers (pool s)).

(** [Pool.Release] *)
Definition Pool_Release : M unit :=
  p <- get_pool ;;
  if Pool.isReleased p =? 0 then
    modify_pool (Pool.set_isReleased 1) ;;
    chan_drain ;;
    chan_close ;;
    modify_pool (Pool.set_bufCount 0) ;;
    modify_pool (Pool.set_bufSize 0) ;;
    modify_pool (Pool.set_isInitialized false)
  else ret tt.

(** [Buffer.SetLength] through a pointer. *)
Definition Buffer_SetLength (len : Z) (a : nat) : M unit :=
  b <- load a ;; store a (Buffer.SetLength len b).

(** [Buffer.GetLength] *)
Definition Buffer_GetLength (a : nat) : M Z :=
  b <- load a ;; ret (Buffer.GetLength b).

(** [Buffer.GetValidData] *)
Definition Buffer_GetValidData (a : nat) : M (list T) :=
  b <- load a ;;
  match Buffer.GetValidData b with
  | Some d => ret d
  | None => panic "slice bounds out of range"
  end.

(** [Buffer.GetFullData] *)
Definition Buffer_GetFullData (a : nat) : M (list T) :=
  b <- load a ;; ret (Buffer.GetFullData b).

(** [b.GetFullData()[i] = v]: a write through the aliasing slice. *)
Definition Buffer_write (a : nat) (i : Z) (v : T) : M unit :=
  b <- load a ;;
  if (0 <=? i) && (i <? Buffer.capacity b)
  then store a (Buffer.mk (<[Z.to_nat i := v]> (Buffer.data b))
                          (Buffer.length b) (Buffer.inUse b))
  else panic "index out of range".

(** [Buffer.Release] *)
Definition Buffer_Release (a : nat) : M unit :=
  b <- load a ;;
  if Buffer.inUse b =? 1 then
    store a (Buffer.set_inUse 0 b) ;;
    Buffer_SetLength 0 a ;;
    put a
  else panic "Buffer already released or was never acquired".

(** ** Sequences of calls *)

(** The calls a client of the package can make. *)
Inductive Op :=
| OpInit (bufCount bufSize : Z)
| OpBufferChan
| OpAcquire
| OpReset
| OpAvailable
| OpPoolRelease
| OpSetLength (a : nat) (len : Z)
| OpGetLength (a : nat)
| OpGetValidData (a : nat)
| OpGetFullData (a : nat)
| OpWrite (a : nat) (i : Z) (v : T)
| OpBufferRelease (a : nat).

(** The state a call leaves behind, whether it returned or panicked. *)
Definition step (op : Op) (s : State) : State :=
  match op with
  | OpInit c n => state_of (Init c n s)
  | OpBufferChan => state_of (BufferChan s)
  | OpAcquire => state_of (Acquire s)
  | OpReset => state_of (Reset s)
  | OpAvailable => s
  | OpPoolRelease => state_of (Pool_Release s)
  | OpSetLength a len => state_of (Buffer_SetLength len a s)
  | OpGetLength a => state_of (Buffer_GetLength a s)
  | OpGetValidData a => state_of (Buffer_GetValidData a s)
  | OpGetFullData a => state_of (Buffer_GetFullData a s)
  | OpWrite a i v => state_of (Buffer_write a i v s)
  | OpBufferRelease a => state_of (Buffer_Release a s)
  end.

Definition run (ops : list Op) (s : State) : State :=
  foldl (fun s op => step op s) s ops.

(** States a program can bring the pool to, starting from [NewPool]. *)
Inductive reachable : State -> Prop :=
| reach_new : reachable NewPool
| reach_step s op : reachable s -> reachable (step op s).

(** The buffer that [Init] and [Reset] allocate. *)
Definition fresh (size : Z) : Buffer.t T :=
  Buffer.mk (replicate (Z.to_nat size) zero) 0 0.

(** The free list, as the list of queued pointers. *)
Definition free_list (s : State) : list nat :=
  match Pool.buffers (pool s) with
  | None => []
  | Some ch => Chan.queue ch
  end.

(** [a] points to a buffer whose [inUse] flag is [v]. *)
Definition inUse_at (s : State) (a : nat) (v : Z) : Prop :=
  exists b, heap s !! a = Some b /\ Buffer.inUse b = v.

(** The state [Acquire] leaves when it hands out [a]: [a] is dequeued and
    marked in use. *)
Definition taken (s : State) (a : nat) (ch : Chan.t) (q : list nat)
    (b : Buffer.t T) : State :=
  mkState (<[a := Buffer.set_inUse 1 b]> (heap s))
    (Pool.set_buffers (Some (Chan.mk (Chan.cap ch) q (Chan.closed ch)))
       (pool s))
    (forwarders s).

(** The state after a successful [Init count size]. *)
Definition initialized (s : State) (count size : Z) : State :=
  mkState (heap s ++ replicate (Z.to_nat count) (fresh size))
    (Pool.mk
       (Some (Chan.mk count (seq (length (heap s)) (Z.to_nat count)) false))
       size count true (Pool.isReleased (pool s)))
    (forwarders s).

(** The state after a [Reset] that refills the channel [ch]. *)
Definition refilled (s : State) (ch : Chan.t) : State :=
  let n := Z.to_nat (Pool.bufCount (pool s)) in
  mkState (heap s ++ replicate n (fresh (Pool.bufSize (pool s))))
    (Pool.set_buffers
       (Some (Chan.mk (Chan.cap ch) (seq (length (heap s)) n) false))
       (pool s))
    (forwarders s).

(** What [Buffer.Release] makes of the struct: flag cleared, length 0. *)
Definition freed (b : Buffer.t T) : Buffer.t T :=
  Buffer.SetLength 0 (Buffer.set_inUse 0 b).

(** ** The invariant of reachable states *)

(** What holds of the pool's channel: it is within its capacity and holds
    no pointer twice; once closed it is empty and the pool is released;
    while open the pool is initialized with the channel's capacity. *)
Definition chan_ok (p : Pool.t) (ch : Chan.t) : Prop :=
  Z.of_nat (length (Chan.queue ch)) <= Chan.cap ch /\
  NoDup (Chan.queue ch) /\
  if Chan.closed ch
  then Pool.isReleased p = 1 /\ Chan.queue ch = []
  else Pool.isReleased p = 0 /\ Pool.isInitialized p = true /\
       Chan.cap ch = Pool.bufCount p /\
       0 < Pool.bufCount p /\ 0 < Pool.bufSize p.

Definition wf (s : State) : Prop :=
  (Pool.isReleased (pool s) = 0 \/ Pool.isReleased (pool s) = 1) /\
  (Pool.isInitialized (pool s) = true -> Pool.isReleased (pool s) = 0) /\
  match Pool.buffers (pool s) with
  | None => Pool.isInitialized (pool s) = false
  | Some ch => chan_ok (pool s) ch
  end /\
  forall a, a ∈ free_list s -> inUse_at s a 0.

(** No call of [Acquire] along [ops], run from [s], hands out [a]. *)
Fixpoint never_acquires (a : nat) (ops : list Op) (s : State) : Prop :=
  match ops with
  | [] => True
  | op :: ops' =>
      (op = OpAcquire -> forall s', Acquire s <> Ok s' (Some a)) /\
      never_acquires a ops' (step op s)
  end.

(** Calls that work on a buffer a consumer holds, or only look at the
    pool: everything but the calls that move buffers or reconfigure. *)
Definition uses_buffer (op : Op) : bool :=
  match op with
  | OpSetLength _ _ | OpGetLength _ | OpGetValidData _ | OpGetFullData _
  | OpWrite _ _ _ | OpAvailable => true
  | _ => false
  end.

(** Calls that neither take a buffer out of the free list, nor release the
    pool, nor release buffer [a]. *)
Definition keeps_orphan (a : nat) (op : Op) : bool :=
  match op with
  | OpAcquire | OpPoolRelease => false
  | OpBufferRelease a' => negb (a' =? a)%nat
  | _ => true
  end.

(** A buffer that a consumer acquired before a later [Init] is never again
    in the free list. *)
Definition orphans_never_reclaimed : Prop :=
  forall s a s1 count size s2 ops,
    reachable s ->
    Acquire s = Ok s1 (Some a) ->
    Init count size s1 = Ok s2 None ->
    a ∉ free_list (run ops s2).

(** A pool of one buffer of capacity 10 whose pooled buffer is marked in
    use: the fault that the retry branch of [Acquire] is written for. *)
Definition faulty_pool : State :=
  mkState [Buffer.mk (replicate 10 zero) 0 1]
    (Pool.mk (Some (Chan.mk 1 [O] false)) 10 1 true 0) O.

(** The loop [for i := 0; i < n; i++ { pool.Acquire() }] of a client,
    with the results of the calls. *)
Fixpoint acquire_many (n : nat) : M (list (option nat)) :=
  match n with
  | O => ret []
  | S n' => r <- Acquire ;; rs <- acquire_many n' ;; ret (r :: rs)
  end.

(** A client releasing the buffers it holds, one after the other. *)
Fixpoint release_all (l : list nat) : M unit :=
  match l with
  | [] => ret tt
  | a :: l' => Buffer_Release a ;; release_all l'
  end.

(** Capacity of the pool's channel, 0 for the nil channel. *)
Definition free_cap (s : State) : Z :=
  match Pool.buffers (pool s) with
  | None => 0
  | Some ch => Chan.cap ch
  end.

(** All that one call can do to the heap. *)
Inductive heap_change (h : list (Buffer.t T)) : Op -> list (Buffer.t T) -> Prop :=
| hc_same op : heap_change h op h
| hc_alloc op k size : heap_change h op (h ++ replicate k (fresh size))
| hc_acquire a b :
    h !! a = Some b ->
    heap_change h OpAcquire (<[a := Buffer.set_inUse 1 b]> h)
| hc_release a b :
    h !! a = Some b ->
    heap_change h (OpBufferRelease a) (<[a := freed b]> h)
| hc_setlength a len b :
    h !! a = Some b ->
    heap_change h (OpSetLength a len) (<[a := Buffer.SetLength len b]> h)
| hc_write a i v b :
    h !! a = Some b ->
    0 <= i < Buffer.capacity b ->
    heap_change h (OpWrite a i v)
      (<[a := Buffer.mk (<[Z.to_nat i := v]> (Buffer.data b))
                 (Buffer.length b) (Buffer.inUse b)]> h).

(** The call is not a [SetLength] with a negative argument. *)
Definition nonneg_SetLength (op : Op) : bool :=
  match op with
  | OpSetLength _ len => 0 <=? len
  | _ => true
  end.

(** The call is not a write into buffer [a]. *)
Definition not_write_to (a : nat) (op : Op) : bool :=
  match op with
  | OpWrite a' _ _ => negb (a' =? a)%nat
  | _ => true
  end.

(** Acquire and release traffic on the buffers allocated from address
    [base] on: [Acquire], [Release] of such a buffer, and the calls of
    [uses_buffer]. *)
Definition traffic (base : nat) (op : Op) : bool :=
  match op with
  | OpAcquire => true
  | OpBufferRelease a => (base <=? a)%nat
  | _ => uses_buffer op
  end.

(** ** Facts about channels and the fill loop *)

Lemma drain_queue_nil q : Chan.drain_queue q = [].
Proof. induction q; simpl; auto. Qed.

Lemma len_drain c : Chan.len (Chan.drain c) = 0.
Proof.
  destruct c as [ch|]; simpl; [rewrite drain_queue_nil|]; reflexivity.
Qed.

Lemma send_room ch a :
  Chan.closed ch = false ->
  Z.of_nat (length (Chan.queue ch)) < Chan.cap ch ->
  Chan.send (Some ch) a
  = Chan.Sent (Chan.mk (Chan.cap ch) (Chan.queue ch ++ [a]) false).
Proof.
  intros Hc Hlt. unfold Chan.send. rewrite Hc.
  destruct (Z.ltb_spec (Z.of_nat (length (Chan.queue ch))) (Chan.cap ch));
    [reflexivity | lia].
Qed.

Lemma send_full ch a :
  Chan.closed ch = false ->
  Chan.cap ch <= Z.of_nat (length (Chan.queue ch)) ->
  Chan.send (Some ch) a = Chan.SendNotReady.
Proof.
  intros Hc Hle. unfold Chan.send. rewrite Hc.
  destruct (Z.ltb_spec (Z.of_nat (length (Chan.queue ch))) (Chan.cap ch));
    [lia | reflexivity].
Qed.

(** The loop of [Init] and [Reset] never blocks while the channel has room
    for the [n] buffers: it appends [n] fresh buffers to the heap and their
    addresses to the queue. *)
Lemma fill_ok n size : forall s ch,
  0 <= size ->
  Pool.buffers (pool s) = Some ch ->
  Chan.closed ch = false ->
  Z.of_nat (length (Chan.queue ch)) + Z.of_nat n <= Chan.cap ch ->
  fill n size s
  = Ok (mkState (heap s ++ replicate n (fresh size))
          (Pool.set_buffers
             (Some (Chan.mk (Chan.cap ch)
                      (Chan.queue ch ++ seq (length (heap s)) n) false))
             (pool s))
          (forwarders s)) tt.
Proof.
  induction n as [|n IH]; intros s ch Hsize Hb Hc Hroom.
  - destruct s as [h p f], p as [c bs bc ii ir], ch as [cp q cl].
    simpl in *. subst. rewrite !app_nil_r. reflexivity.
  - cbn [fill]. unfold bind at 1. unfold newBuffer.
    destruct (Z.ltb_spec size 0) as [|_]; [lia|].
    unfold alloc. unfold bind at 1. unfold chan_send, bind, get_pool.
    cbn [pool heap forwarders]. rewrite Hb.
    rewrite send_room by (auto; lia).
    unfold modify_pool. cbn [pool heap forwarders].
    rewrite (IH _ (Chan.mk (Chan.cap ch) (Chan.queue ch ++ [length (heap s)])
                     false)); cbn [pool heap forwarders Pool.buffers
                                   Pool.set_buffers Chan.queue Chan.cap
                                   Chan.closed];
      [ | assumption | reflexivity | reflexivity | ].
    + rewrite length_app. cbn [length]. rewrite <- !app_assoc.
      cbn [app replicate seq].
      replace (length (heap s) + 1)%nat with (S (length (heap s))) by lia.
      reflexivity.
    + rewrite length_app. cbn [length]. lia.
Qed.

(** Whatever the loop does, it only appends to the heap. *)
Lemma fill_heap n size : forall s,
  exists h', heap (state_of (fill n size s)) = heap s ++ h'.
Proof.
  induction n as [|n IH]; intros s.
  - exists []. simpl. now rewrite app_nil_r.
  - cbn [fill]. unfold bind at 1. unfold newBuffer.
    destruct (size <? 0).
    + exists []. simpl. now rewrite app_nil_r.
    + unfold alloc. unfold bind at 1. unfold chan_send, bind, get_pool.
      cbn [pool heap forwarders].
      destruct (Chan.send _ _) as [ch'| |]; unfold modify_pool, block, panic.
      * destruct (IH (mkState (heap s ++ [fresh size])
                        (Pool.set_buffers (Some ch') (pool s))
                        (forwarders s))) as [h' Hh'].
        exists ([fresh size] ++ h').
        cbn [heap pool forwarders] in *.
        unfold fresh in *. rewrite Hh'. now rewrite <- app_assoc.
      * exists [fresh size]. reflexivity.
      * exists [fresh size]. reflexivity.
Qed.

(** ** Acquire: its recursion and its results *)

Lemma put_in_use a s b :
  Pool.isReleased (pool s) <> 1 ->
  heap s !! a = Some b ->
  Buffer.inUse b <> 0 ->
  put a s = Panic "Attempting to return a buffer that is still in use" s.
Proof.
  intros Hr Hb Hu. unfold put, bind, get_pool, load.
  destruct (Z.eqb_spec (Pool.isReleased (pool s)) 1); [contradiction|].
  rewrite Hb. destruct (Z.eqb_spec (Buffer.inUse b) 0); [contradiction|].
  reflexivity.
Qed.

(** [Acquire] returns with any positive amount of fuel, and the result does
    not depend on the amount: when no other goroutine interferes, the
    recursive call is never reached. *)
Lemma Acquire_rec_fuel fuel s : Acquire_rec (S fuel) s = Some (Acquire s).
Proof.
  unfold Acquire. cbn [Acquire_rec].
  destruct (Z.eqb_spec (Pool.isReleased (pool s)) 1) as [|Hr]; [reflexivity|].
  destruct (Chan.recv (Pool.buffers (pool s))) as [a ch| |]; try reflexivity.
  unfold load. cbn [heap].
  destruct (heap s !! a) as [b|] eqn:Hb; [|reflexivity].
  destruct (Z.eqb_spec (Buffer.inUse b) 0) as [|Hu]; [reflexivity|].
  rewrite (put_in_use a _ b); auto.
Qed.

Lemma Acquire_released s :
  Pool.isReleased (pool s) = 1 -> Acquire s = Ok s None.
Proof.
  intros Hr. unfold Acquire. cbn [Acquire_rec]. rewrite Hr. reflexivity.
Qed.

Lemma Acquire_free s ch a q b :
  Pool.isReleased (pool s) <> 1 ->
  Pool.buffers (pool s) = Some ch ->
  Chan.queue ch = a :: q ->
  heap s !! a = Some b ->
  Buffer.inUse b = 0 ->
  Acquire s = Ok (taken s a ch q b) (Some a).
Proof.
  intros Hr Hc Hq Hb Hu. unfold Acquire. cbn [Acquire_rec].
  destruct (Z.eqb_spec (Pool.isReleased (pool s)) 1); [contradiction|].
  rewrite Hc. unfold Chan.recv. rewrite Hq. unfold load. cbn [heap].
  rewrite Hb, Hu. reflexivity.
Qed.

Lemma Acquire_in_use s ch a q b :
  Pool.isReleased (pool s) <> 1 ->
  Pool.buffers (pool s) = Some ch ->
  Chan.queue ch = a :: q ->
  heap s !! a = Some b ->
  Buffer.inUse b <> 0 ->
  Acquire s
  = Panic "Attempting to return a buffer that is still in use"
      (mkState (heap s)
         (Pool.set_buffers (Some (Chan.mk (Chan.cap ch) q (Chan.closed ch)))
            (pool s))
         (forwarders s)).
Proof.
  intros Hr Hc Hq Hb Hu. unfold Acquire. cbn [Acquire_rec].
  destruct (Z.eqb_spec (Pool.isReleased (pool s)) 1); [contradiction|].
  rewrite Hc. unfold Chan.recv. rewrite Hq. unfold load. cbn [heap].
  rewrite Hb. destruct (Z.eqb_spec (Buffer.inUse b) 0); [contradiction|].
  rewrite (put_in_use a _ b); auto.
Qed.

Lemma Acquire_empty s :
  free_list s = [] ->
  (forall ch, Pool.buffers (pool s) = Some ch -> Chan.closed ch = false) ->
  Acquire s = Ok s None.
Proof.
  intros Hq Hc. unfold Acquire. cbn [Acquire_rec].
  destruct (Pool.isReleased (pool s) =? 1); [reflexivity|].
  unfold free_list in Hq. unfold Chan.recv.
  destruct (Pool.buffers (pool s)) as [ch|]; [|reflexivity].
  rewrite Hq, (Hc ch eq_refl). reflexivity.
Qed.

(** A buffer comes out of [Acquire] only from the head of the free list,
    and only if it was free. *)
Lemma Acquire_inv s s1 a :
  Acquire s = Ok s1 (Some a) ->
  exists ch q b,
    Pool.isReleased (pool s) <> 1 /\
    Pool.buffers (pool s) = Some ch /\
    Chan.queue ch = a :: q /\
    heap s !! a = Some b /\
    Buffer.inUse b = 0 /\
    s1 = taken s a ch q b.
Proof.
  unfold Acquire. cbn [Acquire_rec].
  destruct (Z.eqb_spec (Pool.isReleased (pool s)) 1) as [|Hr]; [discriminate|].
  destruct (Pool.buffers (pool s)) as [ch|] eqn:Hc; [|discriminate].
  unfold Chan.recv. destruct (Chan.queue ch) as [|a' q] eqn:Hq.
  { destruct (Chan.closed ch); discriminate. }
  unfold load. cbn [heap].
  destruct (heap s !! a') as [b|] eqn:Hb; [|discriminate].
  destruct (Z.eqb_spec (Buffer.inUse b) 0) as [Hu|Hu].
  - unfold bind, store, ret. intros [= <- <-].
    exists ch, q, b. repeat split; auto.
  - rewrite (put_in_use a' _ b); auto. discriminate.
Qed.

(** [Acquire] writes to the heap only when it hands a buffer out. *)
Lemma Acquire_heap s :
  heap (state_of (Acquire s)) = heap s \/
  exists a s1, Acquire s = Ok s1 (Some a).
Proof.
  unfold Acquire. cbn [Acquire_rec].
  destruct (Z.eqb_spec (Pool.isReleased (pool s)) 1) as [|Hr]; [now left|].
  destruct (Chan.recv (Pool.buffers (pool s))) as [a ch| |];
    try (now left).
  unfold load. cbn [heap].
  destruct (heap s !! a) as [b|] eqn:Hb; [|now left].
  destruct (Z.eqb_spec (Buffer.inUse b) 0) as [Hu|Hu].
  - right. eexists _, _. reflexivity.
  - rewrite (put_in_use a _ b); auto.
Qed.

(** ** Init, Reset and the two Release, case by case *)

Lemma Init_released s count size :
  Pool.isReleased (pool s) = 1 ->
  Init count size s = Ok s (Some "pool has been released"%string).
Proof.
  intros Hr. unfold Init, bind, get_pool. rewrite Hr. reflexivity.
Qed.

Lemma Init_invalid s count size :
  Pool.isReleased (pool s) <> 1 ->
  count <= 0 \/ size <= 0 ->
  Init count size s = Ok s (Some "invalid buffer count or size"%string).
Proof.
  intros Hr Hbad. unfold Init, bind, get_pool.
  destruct (Z.eqb_spec (Pool.isReleased (pool s)) 1); [contradiction|].
  destruct (Z.leb_spec count 0); [reflexivity|].
  destruct (Z.leb_spec size 0); [reflexivity|]. lia.
Qed.

Lemma Init_ok s count size :
  Pool.isReleased (pool s) <> 1 ->
  0 < count -> 0 < size ->
  Init count size s = Ok (initialized s count size) None.
Proof.
  intros Hr Hc Hs. unfold Init, bind, get_pool.
  destruct (Z.eqb_spec (Pool.isReleased (pool s)) 1); [contradiction|].
  destruct (Z.leb_spec count 0); [lia|].
  destruct (Z.leb_spec size 0); [lia|].
  cbn [orb]. unfold modify_pool. cbn [heap pool forwarders].
  rewrite (fill_ok _ _ _ (Chan.make count)); cbn; try reflexivity; lia.
Qed.

Lemma Reset_skip s :
  Pool.isReleased (pool s) = 1 \/ Pool.isInitialized (pool s) = false ->
  Reset s = Ok s tt.
Proof.
  intros H. unfold Reset, bind, get_pool.
  destruct (Pool.isReleased (pool s) =? 1) eqn:E; [reflexivity|].
  destruct H as [H|H]; [rewrite H in E; discriminate|].
  rewrite H. reflexivity.
Qed.

Lemma Reset_ok s ch :
  Pool.isReleased (pool s) <> 1 ->
  Pool.isInitialized (pool s) = true ->
  Pool.buffers (pool s) = Some ch ->
  Chan.closed ch = false ->
  Z.of_nat (Z.to_nat (Pool.bufCount (pool s))) <= Chan.cap ch ->
  0 <= Pool.bufSize (pool s) ->
  Reset s = Ok (refilled s ch) tt.
Proof.
  intros Hr Hi Hc Hcl Hcap Hs. unfold Reset, bind, get_pool.
  destruct (Z.eqb_spec (Pool.isReleased (pool s)) 1); [contradiction|].
  rewrite Hi. cbn [negb]. unfold chan_drain, modify_pool.
  rewrite Hc. cbn [Chan.drain]. rewrite drain_queue_nil.
  rewrite (fill_ok _ _ _ (Chan.mk (Chan.cap ch) [] (Chan.closed ch)));
    cbn; auto.
Qed.

Lemma Pool_Release_again s :
  Pool.isReleased (pool s) <> 0 -> Pool_Release s = Ok s tt.
Proof.
  intros Hr. unfold Pool_Release, bind, get_pool.
  destruct (Z.eqb_spec (Pool.isReleased (pool s)) 0); [contradiction|].
  reflexivity.
Qed.

Lemma Pool_Release_open s ch :
  Pool.isReleased (pool s) = 0 ->
  Pool.buffers (pool s) = Some ch ->
  Chan.closed ch = false ->
  Pool_Release s
  = Ok (mkState (heap s)
          (Pool.mk (Some (Chan.mk (Chan.cap ch) [] true)) 0 0 false 1)
          (forwarders s)) tt.
Proof.
  intros Hr Hc Hcl. destruct s as [h [c bs bc ii ir] f]. cbn in *. subst.
  unfold Pool_Release, chan_drain, chan_close, bind, get_pool, modify_pool.
  cbn. rewrite Hcl, drain_queue_nil. reflexivity.
Qed.

(** On a pool whose channel was never made, [close] panics: the released
    flag is already set, the other fields are not cleared. *)
Lemma Pool_Release_nil s :
  Pool.isReleased (pool s) = 0 ->
  Pool.buffers (pool s) = None ->
  Pool_Release s
  = Panic "close of nil channel"
      (mkState (heap s) (Pool.set_isReleased 1 (pool s)) (forwarders s)).
Proof.
  intros Hr Hc. destruct s as [h [c bs bc ii ir] f]. cbn in *. subst.
  reflexivity.
Qed.

Lemma Buffer_Release_not_owned s a b :
  heap s !! a = Some b ->
  Buffer.inUse b <> 1 ->
  Buffer_Release a s
  = Panic "Buffer already released or was never acquired" s.
Proof.
  intros Hb Hu. unfold Buffer_Release, bind, load. rewrite Hb.
  destruct (Z.eqb_spec (Buffer.inUse b) 1); [contradiction|]. reflexivity.
Qed.

Lemma freed_inUse b : Buffer.inUse (freed b) = 0.
Proof. reflexivity. Qed.

Lemma freed_length b : Buffer.length (freed b) = 0.
Proof.
  unfold freed, Buffer.SetLength, Buffer.capacity. cbn.
  destruct (Z.gtb_spec 0 (Z.of_nat (length (Buffer.data b)))); [lia|].
  reflexivity.
Qed.

(** The first half of [Buffer.Release]: the CAS and [SetLength(0)]. *)
Lemma Buffer_Release_put s a b :
  heap s !! a = Some b ->
  Buffer.inUse b = 1 ->
  Buffer_Release a s
  = put a (mkState (<[a := freed b]> (heap s)) (pool s) (forwarders s)).
Proof.
  intros Hb Hu. unfold Buffer_Release, Buffer_SetLength, bind, load, store.
  rewrite Hb, Hu. cbn [Z.eqb Pos.eqb heap pool forwarders].
  rewrite list_lookup_insert_eq by (eapply lookup_lt_Some; eauto).
  cbn [heap pool forwarders]. rewrite list_insert_insert_eq. reflexivity.
Qed.

Lemma Buffer_Release_released s a b :
  heap s !! a = Some b ->
  Buffer.inUse b = 1 ->
  Pool.isReleased (pool s) = 1 ->
  Buffer_Release a s
  = Ok (mkState (<[a := freed b]> (heap s)) (pool s) (forwarders s)) tt.
Proof.
  intros Hb Hu Hr. rewrite (Buffer_Release_put s a b) by auto.
  unfold put, bind, get_pool. cbn [pool]. rewrite Hr. reflexivity.
Qed.

Lemma put_free_lookup s a b :
  heap s !! a = Some b ->
  load a (mkState (<[a := freed b]> (heap s)) (pool s) (forwarders s))
  = Ok (mkState (<[a := freed b]> (heap s)) (pool s) (forwarders s))
       (freed b).
Proof.
  intros Hb. unfold load. cbn [heap].
  rewrite list_lookup_insert_eq by (eapply lookup_lt_Some; eauto).
  reflexivity.
Qed.

(** The second half, on a pool that is not released: the non-blocking
    send decides. *)
Lemma Buffer_Release_send s a b :
  heap s !! a = Some b ->
  Buffer.inUse b = 1 ->
  Pool.isReleased (pool s) <> 1 ->
  Buffer_Release a s
  = let s' := mkState (<[a := freed b]> (heap s)) (pool s) (forwarders s) in
    match Chan.send (Pool.buffers (pool s)) a with
    | Chan.Sent ch =>
        Ok (mkState (heap s') (Pool.set_buffers (Some ch) (pool s))
              (forwarders s)) tt
    | Chan.SendNotReady =>
        Panic "Attempting to return a buffer to a full pool" s'
    | Chan.SendOnClosed => Panic "send on closed channel" s'
    end.
Proof.
  intros Hb Hu Hr. rewrite (Buffer_Release_put s a b) by auto.
  unfold put, bind at 1. unfold get_pool. cbn [pool].
  destruct (Z.eqb_spec (Pool.isReleased (pool s)) 1); [contradiction|].
  unfold bind. rewrite put_free_lookup by auto. rewrite freed_inUse.
  cbn [Z.eqb]. destruct (Chan.send _ _); reflexivity.
Qed.

Lemma Buffer_Release_ok s a b ch :
  heap s !! a = Some b ->
  Buffer.inUse b = 1 ->
  Pool.isReleased (pool s) <> 1 ->
  Pool.buffers (pool s) = Some ch ->
  Chan.closed ch = false ->
  Z.of_nat (length (Chan.queue ch)) < Chan.cap ch ->
  Buffer_Release a s
  = Ok (mkState (<[a := freed b]> (heap s))
          (Pool.set_buffers
             (Some (Chan.mk (Chan.cap ch) (Chan.queue ch ++ [a]) false))
             (pool s))
          (forwarders s)) tt.
Proof.
  intros Hb Hu Hr Hc Hcl Hlt. rewrite (Buffer_Release_send s a b) by auto.
  rewrite Hc, send_room by auto. reflexivity.
Qed.

Lemma Buffer_Release_full s a b ch :
  heap s !! a = Some b ->
  Buffer.inUse b = 1 ->
  Pool.isReleased (pool s) <> 1 ->
  Pool.buffers (pool s) = Some ch ->
  Chan.closed ch = false ->
  Chan.cap ch <= Z.of_nat (length (Chan.queue ch)) ->
  Buffer_Release a s
  = Panic "Attempting to return a buffer to a full pool"
      (mkState (<[a := freed b]> (heap s)) (pool s) (forwarders s)).
Proof.
  intros Hb Hu Hr Hc Hcl Hle. rewrite (Buffer_Release_send s a b) by auto.
  rewrite Hc, send_full by auto. reflexivity.
Qed.

(** ** The invariant holds in every reachable state *)

Lemma wf_new : wf NewPool.
Proof.
  repeat split; cbn; auto.
  intros a Ha. apply elem_of_nil in Ha. contradiction.
Qed.

(** The invariant looks at the heap only through the flags of the queued
    buffers. *)
Lemma wf_heap s h' f' :
  wf s ->
  (forall a, a ∈ free_list s -> inUse_at s a 0 ->
             exists b, h' !! a = Some b /\ Buffer.inUse b = 0) ->
  wf (mkState h' (pool s) f').
Proof.
  intros (H1 & H2 & H3 & H4) Hh. repeat split; auto.
  intros a Ha. apply Hh; auto.
Qed.

Lemma wf_insert s a b' :
  wf s ->
  (a ∈ free_list s -> Buffer.inUse b' = 0) ->
  wf (mkState (<[a := b']> (heap s)) (pool s) (forwarders s)).
Proof.
  intros Hwf Hfree. apply wf_heap; auto.
  intros a' Ha' (b & Hb & Hu). destruct (decide (a = a')) as [->|Hne].
  - exists b'. split; auto.
    apply list_lookup_insert_eq. eapply lookup_lt_Some; eauto.
  - exists b. split; auto. rewrite list_lookup_insert_ne; auto.
Qed.

Lemma fresh_lookup (h : list (Buffer.t T)) n size a :
  a ∈ seq (length h) n ->
  (h ++ replicate n (fresh size)) !! a = Some (fresh size).
Proof.
  intros Ha. apply elem_of_seq in Ha.
  rewrite lookup_app_r by lia. apply lookup_replicate_2. lia.
Qed.

Lemma wf_initialized s count size :
  wf s ->
  Pool.isReleased (pool s) <> 1 ->
  0 < count -> 0 < size ->
  wf (initialized s count size).
Proof.
  intros (H1 & H2 & H3 & H4) Hr Hc Hs.
  assert (Pool.isReleased (pool s) = 0) as Hr0 by (destruct H1; congruence).
  unfold wf, initialized, chan_ok, free_list, inUse_at.
  cbn [pool heap Pool.buffers Pool.isReleased Pool.isInitialized
       Pool.bufCount Pool.bufSize Chan.queue Chan.cap Chan.closed].
  repeat split; auto.
  - rewrite length_seq. lia.
  - apply NoDup_seq.
  - intros a Ha. exists (fresh size). split; [|reflexivity].
    apply fresh_lookup; auto.
Qed.

Lemma wf_refilled s ch :
  wf s ->
  Pool.isInitialized (pool s) = true ->
  Pool.buffers (pool s) = Some ch ->
  wf (refilled s ch).
Proof.
  intros (H1 & H2 & H3 & H4) Hi Hc.
  rewrite Hc in H3. destruct H3 as (Hlen & Hnd & Hcl).
  specialize (H2 Hi).
  destruct (Chan.closed ch); [destruct Hcl; congruence|].
  destruct Hcl as (_ & _ & Hcap & Hbc & Hbs).
  unfold wf, refilled, chan_ok, free_list, inUse_at.
  destruct s as [h [c bs bc ii ir] f].
  cbn [pool heap Pool.buffers Pool.isReleased Pool.isInitialized
       Pool.bufCount Pool.bufSize Pool.set_buffers Chan.queue Chan.cap
       Chan.closed] in *.
  repeat split; auto.
  - rewrite length_seq. lia.
  - apply NoDup_seq.
  - intros a Ha. exists (fresh bs). split; [|reflexivity].
    apply fresh_lookup; auto.
Qed.

Lemma wf_taken s ch a q b :
  wf s ->
  Pool.buffers (pool s) = Some ch ->
  Chan.queue ch = a :: q ->
  heap s !! a = Some b ->
  wf (taken s a ch q b).
Proof.
  intros (H1 & H2 & H3 & H4) Hc Hq Hb.
  rewrite Hc in H3. destruct H3 as (Hlen & Hnd & Hcl).
  rewrite Hq in Hlen, Hnd. apply NoDup_cons in Hnd as [Hnotin Hnd].
  unfold free_list in H4. rewrite Hc, Hq in H4.
  unfold wf, taken, chan_ok, free_list, inUse_at.
  destruct s as [h [c bs bc ii ir] f].
  cbn [pool heap Pool.buffers Pool.isReleased Pool.isInitialized
       Pool.bufCount Pool.bufSize Pool.set_buffers Chan.queue Chan.cap
       Chan.closed length] in *.
  repeat split; auto.
  - lia.
  - destruct (Chan.closed ch); [|exact Hcl].
    destruct Hcl as [_ Hnil]. rewrite Hq in Hnil. discriminate.
  - intros a' Ha'. destruct (H4 a') as (b' & Hb' & Hu').
    { apply elem_of_cons. now right. }
    exists b'. split; auto. rewrite list_lookup_insert_ne; auto.
    intros ->. contradiction.
Qed.

Lemma wf_enqueued s ch a b :
  wf s ->
  heap s !! a = Some b ->
  Buffer.inUse b = 1 ->
  Pool.buffers (pool s) = Some ch ->
  Chan.closed ch = false ->
  Z.of_nat (length (Chan.queue ch)) < Chan.cap ch ->
  wf (mkState (<[a := freed b]> (heap s))
        (Pool.set_buffers
           (Some (Chan.mk (Chan.cap ch) (Chan.queue ch ++ [a]) false))
           (pool s))
        (forwarders s)).
Proof.
  intros (H1 & H2 & H3 & H4) Hb Hu Hc Hcl Hlt.
  rewrite Hc in H3. destruct H3 as (Hlen & Hnd & Hopen).
  rewrite Hcl in Hopen.
  unfold free_list in H4. rewrite Hc in H4.
  assert (a ∉ Chan.queue ch) as Hnotin.
  { intros Hin. destruct (H4 a Hin) as (b0 & Hb0 & Hu0). congruence. }
  unfold wf, chan_ok, free_list, inUse_at.
  destruct s as [h [c bs bc ii ir] f].
  cbn [pool heap Pool.buffers Pool.isReleased Pool.isInitialized
       Pool.bufCount Pool.bufSize Pool.set_buffers Chan.queue Chan.cap
       Chan.closed] in *.
  repeat split; auto; try tauto.
  - rewrite length_app. cbn [length]. lia.
  - apply NoDup_app. repeat split; auto.
    + intros x Hx Hx'. apply list_elem_of_singleton in Hx'. congruence.
    + apply NoDup_singleton.
  - intros a' Ha'. apply elem_of_app in Ha' as [Ha'|Ha'].
    + destruct (H4 a' Ha') as (b' & Hb' & Hu').
      exists b'. split; auto. rewrite list_lookup_insert_ne; auto.
      intros ->. contradiction.
    + apply list_elem_of_singleton in Ha' as ->.
      exists (freed b). split; [|reflexivity].
      apply list_lookup_insert_eq. eapply lookup_lt_Some; eauto.
Qed.

(** In a well-formed state an open channel is the channel of an
    initialized pool, and a pool that is not released has no closed one. *)
Lemma wf_open s ch :
  wf s ->
  Pool.buffers (pool s) = Some ch ->
  Pool.isReleased (pool s) <> 1 ->
  Chan.closed ch = false /\
  Z.of_nat (length (Chan.queue ch)) <= Chan.cap ch /\
  Pool.isInitialized (pool s) = true /\
  Chan.cap ch = Pool.bufCount (pool s) /\
  0 < Pool.bufCount (pool s) /\ 0 < Pool.bufSize (pool s).
Proof.
  intros (H1 & H2 & H3 & H4) Hc Hr. rewrite Hc in H3.
  destruct H3 as (Hlen & Hnd & Hcl).
  destruct (Chan.closed ch); [destruct Hcl; contradiction|].
  tauto.
Qed.

Lemma wf_initialized_chan s :
  wf s ->
  Pool.isInitialized (pool s) = true ->
  Pool.isReleased (pool s) = 0 /\
  exists ch, Pool.buffers (pool s) = Some ch.
Proof.
  intros (H1 & H2 & H3 & H4) Hi. split; auto.
  destruct (Pool.buffers (pool s)) as [ch|]; [eauto | congruence].
Qed.

Lemma wf_Acquire s : wf s -> wf (state_of (Acquire s)).
Proof.
  intros Hwf.
  destruct (Z.eq_dec (Pool.isReleased (pool s)) 1) as [Hr|Hr].
  { rewrite Acquire_released; auto. }
  destruct (Pool.buffers (pool s)) as [ch|] eqn:Hc.
  - destruct (wf_open s ch Hwf Hc Hr) as (Hcl & _).
    destruct (Chan.queue ch) as [|a q] eqn:Hq.
    + rewrite Acquire_empty; auto.
      * unfold free_list. now rewrite Hc.
      * intros ch' Hch'. congruence.
    + destruct Hwf as (H1 & H2 & H3 & H4).
      destruct (H4 a) as (b & Hb & Hu).
      { unfold free_list. rewrite Hc, Hq. apply elem_of_cons. now left. }
      rewrite (Acquire_free s ch a q b); auto.
      apply wf_taken; auto. repeat split; auto.
  - rewrite Acquire_empty; auto.
    + unfold free_list. now rewrite Hc.
    + intros ch' Hch'. congruence.
Qed.

Lemma wf_Reset s : wf s -> wf (state_of (Reset s)).
Proof.
  intros Hwf.
  destruct (Z.eq_dec (Pool.isReleased (pool s)) 1) as [Hr|Hr].
  { rewrite Reset_skip; auto. }
  destruct (Pool.isInitialized (pool s)) eqn:Hi.
  2:{ rewrite Reset_skip; auto. }
  destruct (wf_initialized_chan s Hwf Hi) as (_ & ch & Hc).
  destruct (wf_open s ch Hwf Hc Hr) as (Hcl & _ & _ & Hcap & Hbc & Hbs).
  rewrite (Reset_ok s ch); auto; try lia.
  apply wf_refilled; auto.
Qed.

Lemma wf_Pool_Release s : wf s -> wf (state_of (Pool_Release s)).
Proof.
  intros Hwf.
  destruct (Z.eq_dec (Pool.isReleased (pool s)) 0) as [Hr|Hr].
  2:{ rewrite Pool_Release_again; auto. }
  destruct (Pool.buffers (pool s)) as [ch|] eqn:Hc.
  - destruct (wf_open s ch Hwf Hc) as (Hcl & Hlen & _); [lia|].
    rewrite (Pool_Release_open s ch); auto.
    unfold wf, chan_ok, free_list, inUse_at. cbn.
    repeat split; auto; try lia; try discriminate.
    + apply NoDup_nil_2.
    + intros a Ha. apply elem_of_nil in Ha. contradiction.
  - rewrite Pool_Release_nil; auto.
    destruct Hwf as (H1 & H2 & H3 & H4). rewrite Hc in H3.
    unfold wf, free_list, inUse_at.
    destruct s as [h [c bs bc ii ir] f]. cbn in *. subst.
    repeat split; auto; try discriminate.
Qed.

Lemma wf_Buffer_Release s a : wf s -> wf (state_of (Buffer_Release a s)).
Proof.
  intros Hwf.
  destruct (heap s !! a) as [b|] eqn:Hb.
  2:{ unfold Buffer_Release, bind, load. rewrite Hb. exact Hwf. }
  destruct (Z.eq_dec (Buffer.inUse b) 1) as [Hu|Hu].
  2:{ rewrite (Buffer_Release_not_owned s a b); auto. }
  destruct (Z.eq_dec (Pool.isReleased (pool s)) 1) as [Hr|Hr].
  { rewrite (Buffer_Release_released s a b); auto.
    apply wf_insert; auto. }
  rewrite (Buffer_Release_send s a b); auto. cbv zeta.
  destruct (Pool.buffers (pool s)) as [ch|] eqn:Hc.
  - destruct (wf_open s ch Hwf Hc Hr) as (Hcl & _).
    destruct (Z_lt_le_dec (Z.of_nat (length (Chan.queue ch))) (Chan.cap ch)).
    + rewrite send_room by auto. apply wf_enqueued; auto.
    + rewrite send_full by auto. apply wf_insert; auto.
  - cbn. apply wf_insert; auto.
Qed.

Lemma wf_step op s : wf s -> wf (step op s).
Proof.
  intros Hwf. destruct op as [c n| | | | | |a len|a|a|a|a i v|a]; cbn [step].
  - (* Init *)
    destruct (Z.eq_dec (Pool.isReleased (pool s)) 1) as [Hr|Hr].
    { rewrite Init_released; auto. }
    destruct (Z_lt_le_dec 0 c) as [Hc|Hc].
    2:{ rewrite Init_invalid; auto. }
    destruct (Z_lt_le_dec 0 n) as [Hn|Hn].
    2:{ rewrite Init_invalid; auto. }
    rewrite Init_ok; auto. apply wf_initialized; auto.
  - (* BufferChan *)
    unfold BufferChan, bind, get_pool.
    destruct (Pool.isReleased (pool s) =? 1); [exact Hwf|].
    apply wf_heap; auto.
  - apply wf_Acquire; auto.
  - apply wf_Reset; auto.
  - exact Hwf.
  - apply wf_Pool_Release; auto.
  - (* SetLength *)
    unfold Buffer_SetLength, bind, load, store.
    destruct (heap s !! a) as [b|] eqn:Hb; [|exact Hwf].
    apply wf_insert; auto. intros Ha.
    destruct Hwf as (_ & _ & _ & H4). destruct (H4 a Ha) as (b0 & Hb0 & Hu0).
    cbn. congruence.
  - unfold Buffer_GetLength, bind, load.
    destruct (heap s !! a); exact Hwf.
  - unfold Buffer_GetValidData, bind, load.
    destruct (heap s !! a) as [b|]; [|exact Hwf].
    destruct (Buffer.GetValidData b); exact Hwf.
  - unfold Buffer_GetFullData, bind, load.
    destruct (heap s !! a); exact Hwf.
  - (* a write through the slice *)
    unfold Buffer_write, bind, load, store.
    destruct (heap s !! a) as [b|] eqn:Hb; [|exact Hwf].
    destruct ((0 <=? i) && (i <? Buffer.capacity b)); [|exact Hwf].
    apply wf_insert; auto. intros Ha.
    destruct Hwf as (_ & _ & _ & H4). destruct (H4 a Ha) as (b0 & Hb0 & Hu0).
    cbn. congruence.
  - apply wf_Buffer_Release; auto.
Qed.

Lemma reachable_wf s : reachable s -> wf s.
Proof.
  induction 1 as [|s op _ IH]; [apply wf_new | apply wf_step, IH].
Qed.

(** ** How each call treats the heap and the released flag *)

Lemma Init_heap s count size :
  exists h', heap (state_of (Init count size s)) = heap s ++ h'.
Proof.
  unfold Init, bind at 1. unfold get_pool.
  destruct (Pool.isReleased (pool s) =? 1).
  { exists []. cbn. now rewrite app_nil_r. }
  destruct ((count <=? 0) || (size <=? 0)).
  { exists []. cbn. now rewrite app_nil_r. }
  unfold bind, modify_pool. cbn [heap pool forwarders].
  match goal with |- context [fill ?n ?z ?st] =>
    destruct (fill_heap n z st) as [h' Hh']; destruct (fill n z st) end;
    exists h'; exact Hh'.
Qed.

Lemma Reset_heap s :
  exists h', heap (state_of (Reset s)) = heap s ++ h'.
Proof.
  unfold Reset, bind at 1. unfold get_pool.
  destruct (Pool.isReleased (pool s) =? 1).
  { exists []. cbn. now rewrite app_nil_r. }
  destruct (negb (Pool.isInitialized (pool s))).
  { exists []. cbn. now rewrite app_nil_r. }
  unfold bind, chan_drain, modify_pool. cbn [heap pool forwarders].
  match goal with |- context [fill ?n ?z ?st] =>
    destruct (fill_heap n z st) as [h' Hh'] end.
  exists h'. exact Hh'.
Qed.

Lemma Pool_Release_heap s : heap (state_of (Pool_Release s)) = heap s.
Proof.
  unfold Pool_Release, chan_drain, chan_close, bind, get_pool, modify_pool.
  destruct (Pool.isReleased (pool s) =? 0); [|reflexivity].
  cbn [heap pool forwarders Pool.buffers Pool.set_buffers
       Pool.set_isReleased].
  destruct (Chan.drain (Pool.buffers (pool s))) as [ch|]; [|reflexivity].
  destruct (Chan.closed ch); reflexivity.
Qed.

Lemma Buffer_Release_heap s a b :
  heap s !! a = Some b ->
  Buffer.inUse b = 1 ->
  heap (state_of (Buffer_Release a s)) = <[a := freed b]> (heap s).
Proof.
  intros Hb Hu.
  destruct (Z.eq_dec (Pool.isReleased (pool s)) 1) as [Hr|Hr].
  - rewrite (Buffer_Release_released s a b); auto.
  - rewrite (Buffer_Release_send s a b); auto. cbv zeta.
    destruct (Chan.send _ _); reflexivity.
Qed.

(** The flag of a buffer changes only when [Acquire] hands the buffer out
    and when the buffer is released. *)
Lemma step_keeps_flag s a v op :
  inUse_at s a v ->
  (op = OpAcquire -> forall s', Acquire s <> Ok s' (Some a)) ->
  (op = OpBufferRelease a -> v = 0) ->
  inUse_at (step op s) a v.
Proof.
  intros (b & Hb & Hu) Hacq Hrel. unfold inUse_at.
  destruct op as [c n| | | | | |a' len|a'|a'|a'|a' i x|a']; cbn [step].
  - destruct (Init_heap s c n) as [h' ->].
    exists b. split; auto. now apply lookup_app_l_Some.
  - unfold BufferChan, bind, get_pool.
    destruct (Pool.isReleased (pool s) =? 1); cbn; eauto.
  - destruct (Acquire_heap s) as [->|(a' & s1 & Hs1)]; [eauto|].
    rewrite Hs1. cbn [state_of].
    destruct (Acquire_inv s s1 a' Hs1)
      as (ch & q & b' & _ & _ & _ & _ & _ & Hs1eq).
    rewrite Hs1eq. cbn [taken heap]. exists b. split; auto.
    rewrite list_lookup_insert_ne; auto.
    intros Heq. subst a'. exact (Hacq eq_refl s1 Hs1).
  - destruct (Reset_heap s) as [h' ->].
    exists b. split; auto. now apply lookup_app_l_Some.
  - eauto.
  - rewrite Pool_Release_heap. eauto.
  - unfold Buffer_SetLength, bind, load, store.
    destruct (heap s !! a') as [b'|] eqn:Hb'; cbn [state_of heap]; [|eauto].
    destruct (decide (a' = a)) as [->|Hne].
    + exists (Buffer.SetLength len b'). split.
      * apply list_lookup_insert_eq. eapply lookup_lt_Some; eauto.
      * cbn. congruence.
    + exists b. split; auto. rewrite list_lookup_insert_ne; auto.
  - unfold Buffer_GetLength, bind, load.
    destruct (heap s !! a'); cbn; eauto.
  - unfold Buffer_GetValidData, bind, load.
    destruct (heap s !! a') as [b'|]; cbn; [|eauto].
    destruct (Buffer.GetValidData b'); cbn; eauto.
  - unfold Buffer_GetFullData, bind, load.
    destruct (heap s !! a'); cbn; eauto.
  - unfold Buffer_write, bind, load, store.
    destruct (heap s !! a') as [b'|] eqn:Hb'; cbn [state_of heap]; [|eauto].
    destruct ((0 <=? i) && (i <? Buffer.capacity b'));
      cbn [state_of heap]; [|eauto].
    destruct (decide (a' = a)) as [->|Hne].
    + eexists. split.
      * apply list_lookup_insert_eq. eapply lookup_lt_Some; eauto.
      * cbn. congruence.
    + exists b. split; auto. rewrite list_lookup_insert_ne; auto.
  - destruct (heap s !! a') as [b'|] eqn:Hb'.
    2:{ unfold Buffer_Release, bind, load. rewrite Hb'. cbn. eauto. }
    destruct (Z.eq_dec (Buffer.inUse b') 1) as [Hu'|Hu'].
    2:{ rewrite (Buffer_Release_not_owned s a' b'); cbn; eauto. }
    rewrite (Buffer_Release_heap s a' b'); auto.
    destruct (decide (a' = a)) as [->|Hne].
    + exists (freed b'). split.
      * apply list_lookup_insert_eq. eapply lookup_lt_Some; eauto.
      * rewrite (Hrel eq_refl). reflexivity.
    + exists b. split; auto. rewrite list_lookup_insert_ne; auto.
Qed.

(** A free buffer stays free until [Acquire] hands it out. *)
Lemma step_keeps_free s a op :
  inUse_at s a 0 ->
  (op = OpAcquire -> forall s', Acquire s <> Ok s' (Some a)) ->
  inUse_at (step op s) a 0.
Proof.
  intros Hfree Hacq. apply step_keeps_flag; auto.
Qed.

(** The calls of [uses_buffer] leave the pool and every flag alone. *)
Lemma uses_buffer_step op s :
  uses_buffer op = true ->
  pool (step op s) = pool s /\
  forall a v, inUse_at s a v -> inUse_at (step op s) a v.
Proof.
  intros Hop. split.
  - destruct op as [c n| | | | | |a' len|a'|a'|a'|a' i x|a'];
      try discriminate; cbn [step]; try reflexivity.
    + unfold Buffer_SetLength, bind, load, store.
      destruct (heap s !! a'); reflexivity.
    + unfold Buffer_GetLength, bind, load. destruct (heap s !! a'); reflexivity.
    + unfold Buffer_GetValidData, bind, load.
      destruct (heap s !! a') as [b'|]; [|reflexivity].
      destruct (Buffer.GetValidData b'); reflexivity.
    + unfold Buffer_GetFullData, bind, load.
      destruct (heap s !! a'); reflexivity.
    + unfold Buffer_write, bind, load, store.
      destruct (heap s !! a') as [b'|]; [|reflexivity].
      destruct ((0 <=? i) && (i <? Buffer.capacity b')); reflexivity.
  - intros a v Hflag. apply step_keeps_flag; auto.
    + intros ->. discriminate.
    + intros ->. discriminate.
Qed.

Lemma uses_buffer_run ops : forall s,
  forallb uses_buffer ops = true ->
  pool (run ops s) = pool s /\
  forall a v, inUse_at s a v -> inUse_at (run ops s) a v.
Proof.
  induction ops as [|op ops IH]; intros s Hops; [now split|].
  cbn [forallb] in Hops. apply andb_prop in Hops as [Hop Hops].
  destruct (uses_buffer_step op s Hop) as [Hp Hf].
  destruct (IH (step op s) Hops) as [Hp' Hf'].
  cbn [run foldl]. split.
  - fold (run ops (step op s)). congruence.
  - intros a v Hflag. apply Hf', Hf, Hflag.
Qed.

(** While the free list of a pool in use is full, it stays full under the
    calls of [keeps_orphan], and the pool stays in use. *)
Lemma keeps_orphan_step a op s ch :
  wf s ->
  Pool.isReleased (pool s) <> 1 ->
  Pool.buffers (pool s) = Some ch ->
  Chan.cap ch <= Z.of_nat (length (Chan.queue ch)) ->
  keeps_orphan a op = true ->
  Pool.isReleased (pool (step op s)) <> 1 /\
  exists ch',
    Pool.buffers (pool (step op s)) = Some ch' /\
    Chan.cap ch' <= Z.of_nat (length (Chan.queue ch')).
Proof.
  intros Hwf Hr Hc Hfull Hop.
  destruct (wf_open s ch Hwf Hc Hr) as (Hcl & Hlen & Hi & Hcap & Hbc & Hbs).
  assert (Pool.isReleased (pool s) <> 1 /\
          exists ch', Pool.buffers (pool s) = Some ch' /\
                      Chan.cap ch' <= Z.of_nat (length (Chan.queue ch')))
    as Hsame by eauto.
  destruct (uses_buffer op) eqn:Huse.
  { destruct (uses_buffer_step op s Huse) as [-> _]. exact Hsame. }
  destruct op as [c n| | | | | |a' len|a'|a'|a'|a' i x|a'];
    try discriminate; cbn [step].
  - (* Init *)
    destruct (Z_lt_le_dec 0 c) as [Hc0|Hc0].
    2:{ rewrite Init_invalid; auto. }
    destruct (Z_lt_le_dec 0 n) as [Hn0|Hn0].
    2:{ rewrite Init_invalid; auto. }
    rewrite Init_ok; auto. cbn. split; auto.
    eexists. split; [reflexivity|]. cbn. rewrite length_seq. lia.
  - (* BufferChan *)
    unfold BufferChan, bind, get_pool.
    destruct (Pool.isReleased (pool s) =? 1); exact Hsame.
  - (* Reset *)
    rewrite (Reset_ok s ch); auto; try lia.
    unfold refilled. cbn. split; auto.
    eexists. split; [reflexivity|]. cbn. rewrite length_seq. lia.
  - (* Release of another buffer *)
    destruct (heap s !! a') as [b'|] eqn:Hb'.
    2:{ unfold Buffer_Release, bind, load. rewrite Hb'. exact Hsame. }
    destruct (Z.eq_dec (Buffer.inUse b') 1) as [Hu'|Hu'].
    2:{ rewrite (Buffer_Release_not_owned s a' b'); auto. }
    rewrite (Buffer_Release_full s a' b' ch); auto.
Qed.

Lemma keeps_orphan_run a ops : forall s ch,
  wf s ->
  Pool.isReleased (pool s) <> 1 ->
  Pool.buffers (pool s) = Some ch ->
  Chan.cap ch <= Z.of_nat (length (Chan.queue ch)) ->
  inUse_at s a 1 ->
  forallb (keeps_orphan a) ops = true ->
  wf (run ops s) /\
  Pool.isReleased (pool (run ops s)) <> 1 /\
  inUse_at (run ops s) a 1 /\
  exists ch',
    Pool.buffers (pool (run ops s)) = Some ch' /\
    Chan.cap ch' <= Z.of_nat (length (Chan.queue ch')).
Proof.
  induction ops as [|op ops IH]; intros s ch Hwf Hr Hc Hfull Hflag Hops.
  { cbn. eauto 10. }
  cbn [forallb] in Hops. apply andb_prop in Hops as [Hop Hops].
  destruct (keeps_orphan_step a op s ch Hwf Hr Hc Hfull Hop)
    as (Hr' & ch' & Hc' & Hfull').
  cbn [run foldl]. fold (run ops (step op s)).
  apply (IH (step op s) ch'); auto.
  - apply wf_step, Hwf.
  - apply step_keeps_flag; auto.
    + intros ->. discriminate.
    + intros ->. cbn in Hop. rewrite Nat.eqb_refl in Hop. discriminate.
Qed.

Lemma run_keeps_free a ops : forall s,
  inUse_at s a 0 -> never_acquires a ops s -> inUse_at (run ops s) a 0.
Proof.
  induction ops as [|op ops IH]; intros s Hfree Hnever; [exact Hfree|].
  destruct Hnever as [Hop Hrest]. cbn [run foldl]. apply IH; auto.
  apply step_keeps_free; auto.
Qed.

(** Releasing the buffer that [Acquire] has handed out, directly or after
    calls that only use buffers, succeeds and puts it at the back of the
    free list. *)
Lemma release_after_use s s1 a ops :
  wf s ->
  Acquire s = Ok s1 (Some a) ->
  forallb uses_buffer ops = true ->
  exists ch q b',
    Pool.buffers (pool s) = Some ch /\
    Chan.queue ch = a :: q /\
    Pool.isReleased (pool s) <> 1 /\
    heap (run ops s1) !! a = Some b' /\
    Buffer_Release a (run ops s1)
    = Ok (mkState (<[a := freed b']> (heap (run ops s1)))
            (Pool.set_buffers
               (Some (Chan.mk (Chan.cap ch) (q ++ [a]) false)) (pool s))
            (forwarders (run ops s1))) tt.
Proof.
  intros Hwf Hacq Hops.
  destruct (Acquire_inv s s1 a Hacq)
    as (ch & q & b & Hr & Hc & Hq & Hb & Hu & Hs1).
  destruct (wf_open s ch Hwf Hc Hr) as (Hcl & Hlen & _).
  destruct (uses_buffer_run ops s1 Hops) as [Hpool Hflags].
  destruct (Hflags a 1) as (b' & Hb' & Hu').
  { exists (Buffer.set_inUse 1 b). split; [|reflexivity].
    rewrite Hs1. cbn [taken heap].
    apply list_lookup_insert_eq. eapply lookup_lt_Some; eauto. }
  assert (pool (run ops s1)
          = Pool.set_buffers
              (Some (Chan.mk (Chan.cap ch) q (Chan.closed ch))) (pool s))
    as Hpool' by (rewrite Hpool, Hs1; reflexivity).
  exists ch, q, b'. repeat split; auto.
  rewrite (Buffer_Release_ok _ a b'
             (Chan.mk (Chan.cap ch) q (Chan.closed ch))); auto.
  - rewrite Hpool'. destruct (pool s). reflexivity.
  - rewrite Hpool'. exact Hr.
  - rewrite Hpool'. reflexivity.
  - cbn [Chan.queue Chan.cap]. rewrite Hq in Hlen. cbn [length] in Hlen. lia.
Qed.

Lemma released_step op s :
  Pool.isReleased (pool s) = 1 -> Pool.isReleased (pool (step op s)) = 1.
Proof.
  intros Hr. destruct op as [c n| | | | | |a len|a|a|a|a i v|a]; cbn [step].
  - rewrite Init_released; auto.
  - unfold BufferChan, bind, get_pool. rewrite Hr. exact Hr.
  - rewrite Acquire_released; auto.
  - rewrite Reset_skip; auto.
  - exact Hr.
  - rewrite Pool_Release_again; auto. lia.
  - unfold Buffer_SetLength, bind, load, store.
    destruct (heap s !! a); exact Hr.
  - unfold Buffer_GetLength, bind, load. destruct (heap s !! a); exact Hr.
  - unfold Buffer_GetValidData, bind, load.
    destruct (heap s !! a) as [b|]; [|exact Hr].
    destruct (Buffer.GetValidData b); exact Hr.
  - unfold Buffer_GetFullData, bind, load. destruct (heap s !! a); exact Hr.
  - unfold Buffer_write, bind, load, store.
    destruct (heap s !! a) as [b|]; [|exact Hr].
    destruct ((0 <=? i) && (i <? Buffer.capacity b)); exact Hr.
  - destruct (heap s !! a) as [b|] eqn:Hb.
    2:{ unfold Buffer_Release, bind, load. rewrite Hb. exact Hr. }
    destruct (Z.eq_dec (Buffer.inUse b) 1) as [Hu|Hu].
    + rewrite (Buffer_Release_released s a b); auto.
    + rewrite (Buffer_Release_not_owned s a b); auto.
Qed.

Lemma released_run ops : forall s,
  Pool.isReleased (pool s) = 1 -> Pool.isReleased (pool (run ops s)) = 1.
Proof.
  induction ops as [|op ops IH]; intros s Hr; [exact Hr|].
  cbn [run foldl]. apply IH, released_step, Hr.
Qed.

(** Whatever [Pool.Release] does on a well-formed state, it leaves the
    released flag set. *)
Lemma Pool_Release_sets_flag s :
  wf s -> Pool.isReleased (pool (state_of (Pool_Release s))) = 1.
Proof.
  intros Hwf. destruct (Z.eq_dec (Pool.isReleased (pool s)) 0) as [Hr|Hr].
  - destruct (Pool.buffers (pool s)) as [ch|] eqn:Hc.
    + destruct (wf_open s ch Hwf Hc) as (Hcl & _); [lia|].
      rewrite (Pool_Release_open s ch); auto.
    + rewrite Pool_Release_nil; auto.
  - rewrite Pool_Release_again; auto.
    destruct Hwf as ([H0|H1] & _); [contradiction | exact H1].
Qed.

(** [SetLength] keeps a length that is not negative within the capacity. *)
Lemma SetLength_range (b : Buffer.t T) len :
  0 <= len ->
  0 <= Buffer.length (Buffer.SetLength len b) <= Buffer.capacity b.
Proof.
  intros Hlen. unfold Buffer.SetLength, Buffer.capacity. cbn.
  destruct (Z.gtb_spec len (Z.of_nat (length (Buffer.data b)))); lia.
Qed.

(** A negative length is stored as it is. *)
Lemma SetLength_negative (b : Buffer.t T) len :
  len < 0 -> Buffer.length (Buffer.SetLength len b) = len.
Proof.
  intros Hlen. unfold Buffer.SetLength, Buffer.capacity. cbn.
  destruct (Z.gtb_spec len (Z.of_nat (length (Buffer.data b)))); lia.
Qed.

(** ** The claims *)

(** C1. Acquire/Release round trip: in every reachable state of an
    initialized pool that is not released, [Acquire] hands out a buffer
    whenever one is available; releasing the buffer it handed out, directly
    or after the consumer has worked on buffers ([SetLength], writes,
    reads), returns, brings [Available] back to its value before the
    [Acquire], and leaves the buffer with [GetLength() = 0]. *)
Theorem acquire_release_roundtrip s :
  reachable s ->
  Pool.isInitialized (pool s) = true ->
  Pool.isReleased (pool s) = 0 ->
  (0 < Available s -> exists a s1, Acquire s = Ok s1 (Some a)) /\
  forall a s1 ops,
    Acquire s = Ok s1 (Some a) ->
    forallb uses_buffer ops = true ->
    exists s2,
      Buffer_Release a (run ops s1) = Ok s2 tt /\
      Available s2 = Available s /\
      Buffer_GetLength a s2 = Ok s2 0.
Proof.
  intros Hreach Hi Hr. pose proof (reachable_wf s Hreach) as Hwf. split.
  - unfold Available. rewrite Hr. cbn [Z.eqb]. intros Hav.
    destruct (Pool.buffers (pool s)) as [ch|] eqn:Hc; [|cbn in Hav; lia].
    cbn [Chan.len] in Hav.
    destruct (Chan.queue ch) as [|a q] eqn:Hq; [cbn in Hav; lia|].
    destruct Hwf as (_ & _ & _ & H4). destruct (H4 a) as (b & Hb & Hu).
    { unfold free_list. rewrite Hc, Hq. apply elem_of_cons. now left. }
    eexists _, _. apply (Acquire_free s ch a q b); auto. lia.
  - intros a s1 ops Hacq Hops.
    destruct (release_after_use s s1 a ops Hwf Hacq Hops)
      as (ch & q & b' & Hc & Hq & _ & Hb' & Hrel).
    eexists. split; [exact Hrel|]. split.
    + unfold Available.
      cbn [pool Pool.set_buffers Pool.isReleased Pool.buffers].
      rewrite Hr, Hc. cbn [Z.eqb Chan.len Chan.queue].
      rewrite Hq, length_app. cbn [length]. lia.
    + unfold Buffer_GetLength, bind, load, ret. cbn [heap].
      rewrite list_lookup_insert_eq by (eapply lookup_lt_Some; eauto).
      unfold Buffer.GetLength. rewrite freed_length. reflexivity.
Qed.

(** C2. Init postcondition: on a pool that is not released, [Init] with
    [count > 0] and [size > 0] returns nil; afterwards [Available] is
    [count], the pool is initialized, and the free list holds [count]
    distinct buffers, each with [inUse = 0], length 0 and capacity [size]. *)
Theorem Init_postcondition s count size :
  Pool.isReleased (pool s) <> 1 ->
  0 < count -> 0 < size ->
  exists s',
    Init count size s = Ok s' None /\
    Available s' = count /\
    Pool.isInitialized (pool s') = true /\
    Z.of_nat (length (free_list s')) = count /\
    NoDup (free_list s') /\
    forall a, a ∈ free_list s' ->
      exists b, heap s' !! a = Some b /\
                Buffer.inUse b = 0 /\
                Buffer.length b = 0 /\
                Buffer.capacity b = size.
Proof.
  intros Hr Hc Hs. exists (initialized s count size).
  split; [apply Init_ok; auto|].
  unfold Available, free_list, initialized.
  cbn [pool heap Pool.isReleased Pool.buffers Pool.isInitialized Chan.len
       Chan.queue].
  destruct (Z.eqb_spec (Pool.isReleased (pool s)) 1); [contradiction|].
  rewrite length_seq. repeat split; try lia.
  - apply NoDup_seq.
  - intros a Ha. exists (fresh size). split; [apply fresh_lookup; auto|].
    repeat split. unfold Buffer.capacity, fresh. cbn [Buffer.data].
    rewrite length_replicate. lia.
Qed.

(** C5. Double release is fatal: after [Acquire] has handed out a buffer
    in a reachable state, the first [Release] of it, directly or after the
    consumer has worked on buffers, returns; a second [Release], after any
    calls among which no [Acquire] hands the buffer out again (none at all
    included), panics with the double-release message and changes
    nothing. *)
Theorem double_release_panics s a s1 :
  reachable s ->
  Acquire s = Ok s1 (Some a) ->
  forall ops1,
    forallb uses_buffer ops1 = true ->
    exists s2,
      Buffer_Release a (run ops1 s1) = Ok s2 tt /\
      forall ops2,
        never_acquires a ops2 s2 ->
        Buffer_Release a (run ops2 s2)
        = Panic "Buffer already released or was never acquired"
            (run ops2 s2).
Proof.
  intros Hreach Hacq ops1 Hops1. pose proof (reachable_wf s Hreach) as Hwf.
  destruct (release_after_use s s1 a ops1 Hwf Hacq Hops1)
    as (ch & q & b' & Hc & Hq & _ & Hb' & Hrel).
  eexists. split; [exact Hrel|]. intros ops2 Hnever.
  match goal with |- Buffer_Release a (run ops2 ?s2) = _ =>
    assert (inUse_at s2 a 0) as Hfree end.
  { exists (freed b'). split; [|reflexivity]. cbn [heap].
    apply list_lookup_insert_eq. eapply lookup_lt_Some; eauto. }
  destruct (run_keeps_free a ops2 _ Hfree Hnever) as (b2 & Hb2 & Hu2).
  apply (Buffer_Release_not_owned _ a b2); auto. lia.
Qed.

(** C6. The orphaned buffer: when [Acquire] has handed out a buffer in a
    reachable state and [Reset] is called next, [Reset] returns with the
    free list refilled to [bufCount] fresh buffers, and the buffer handed
    out is not among them.  Releasing it then, directly or after calls that
    take nothing out of the free list, panics with the full-pool message:
    the call neither blocks nor returns. *)
Theorem release_orphan_after_Reset s a s1 :
  reachable s ->
  Acquire s = Ok s1 (Some a) ->
  exists s2,
    Reset s1 = Ok s2 tt /\
    Available s2 = Pool.bufCount (pool s) /\
    free_list s2 = seq (length (heap s)) (Z.to_nat (Pool.bufCount (pool s))) /\
    (a ∉ free_list s2) /\
    forall ops,
      forallb (keeps_orphan a) ops = true ->
      exists s3,
        Buffer_Release a (run ops s2)
        = Panic "Attempting to return a buffer to a full pool" s3.
Proof.
  intros Hreach Hacq. pose proof (reachable_wf s Hreach) as Hwf.
  destruct (Acquire_inv s s1 a Hacq)
    as (ch & q & b & Hr & Hc & Hq & Hb & Hu & ->).
  destruct (wf_open s ch Hwf Hc Hr) as (Hcl & Hlen & Hi & Hcap & Hbc & Hbs).
  assert (a < length (heap s))%nat as Hlt by (eapply lookup_lt_Some; eauto).
  set (ch1 := Chan.mk (Chan.cap ch) q (Chan.closed ch)).
  set (s1 := taken s a ch q b).
  assert (wf s1) as Hwf1 by (apply wf_taken; auto).
  assert (Reset s1 = Ok (refilled s1 ch1) tt) as HReset.
  { apply Reset_ok; cbn; auto; lia. }
  exists (refilled s1 ch1). split; [exact HReset|].
  assert (wf (refilled s1 ch1)) as Hwf2 by (apply wf_refilled; auto).
  unfold Available, free_list.
  cbn [refilled s1 taken pool heap forwarders Pool.isReleased Pool.buffers
       Pool.bufCount Pool.bufSize Pool.set_buffers Chan.len Chan.queue
       Chan.cap ch1].
  rewrite length_insert.
  destruct (Z.eqb_spec (Pool.isReleased (pool s)) 1); [contradiction|].
  rewrite length_seq.
  split; [lia|]. split; [reflexivity|]. split.
  { intros Hin. apply elem_of_seq in Hin. lia. }
  intros ops Hops.
  destruct (keeps_orphan_run a ops (refilled s1 ch1)
              (Chan.mk (Chan.cap ch)
                 (seq (length (heap s1))
                    (Z.to_nat (Pool.bufCount (pool s)))) false))
    as (Hwf3 & Hr3 & (b3 & Hb3 & Hu3) & ch3 & Hc3 & Hfull3); auto.
  - cbn [Chan.cap Chan.queue]. rewrite length_seq. lia.
  - exists (Buffer.set_inUse 1 b). split; [|reflexivity].
    cbn [refilled s1 taken heap].
    apply lookup_app_l_Some. now apply list_lookup_insert_eq.
  - destruct (wf_open _ ch3 Hwf3 Hc3 Hr3) as (Hcl3 & _).
    eexists. apply (Buffer_Release_full _ a b3 ch3); auto.
Qed.

(** C7. A released pool is inert for good: after [Pool.Release] has been
    called in a reachable state, and after any further calls, the released
    flag is still set, [Acquire] returns not-found, [BufferChan] returns
    nil, [Available] is 0, and [Reset] and [Pool.Release] return without
    changing anything. *)
Theorem released_pool_inert s ops :
  reachable s ->
  let s' := run ops (state_of (Pool_Release s)) in
  Pool.isReleased (pool s') = 1 /\
  Acquire s' = Ok s' None /\
  BufferChan s' = Ok s' None /\
  Available s' = 0 /\
  Reset s' = Ok s' tt /\
  Pool_Release s' = Ok s' tt.
Proof.
  intros Hreach s'.
  assert (Pool.isReleased (pool s') = 1) as Hr.
  { apply released_run, Pool_Release_sets_flag, reachable_wf, Hreach. }
  split; [exact Hr|].
  split; [apply Acquire_released; auto|].
  split; [unfold BufferChan, bind, get_pool; rewrite Hr; reflexivity|].
  split; [unfold Available; rewrite Hr; reflexivity|].
  split; [apply Reset_skip; auto|].
  apply Pool_Release_again. lia.
Qed.

(** C9. Init error contract: with [count <= 0] or [size <= 0], [Init]
    returns an error and leaves the state as it was (so [Available] stays 0
    on a fresh pool); the error is the invalid-configuration one unless the
    pool is released.  On a released pool [Init] returns the pool-released
    error for any arguments and leaves the state as it was, so the pool
    stays released. *)
Theorem Init_error_contract s count size :
  (count <= 0 \/ size <= 0 ->
   (exists e, Init count size s = Ok s (Some e)) /\
   (Pool.isReleased (pool s) <> 1 ->
    Init count size s = Ok s (Some "invalid buffer count or size"%string)) /\
   Init count size NewPool
   = Ok NewPool (Some "invalid buffer count or size"%string) /\
   Available (state_of (Init count size NewPool)) = 0) /\
  (Pool.isReleased (pool s) = 1 ->
   Init count size s = Ok s (Some "pool has been released"%string) /\
   Pool.isReleased (pool (state_of (Init count size s))) = 1).
Proof.
  split.
  - intros Hbad.
    assert (forall s0, Pool.isReleased (pool s0) <> 1 ->
              Init count size s0
              = Ok s0 (Some "invalid buffer count or size"%string)) as Hinv.
    { intros s0 Hr0. apply Init_invalid; auto. }
    split; [|split; [apply Hinv|split]].
    + destruct (Z.eq_dec (Pool.isReleased (pool s)) 1) as [Hr|Hr].
      * eexists. apply Init_released; auto.
      * eexists. apply Hinv; auto.
    + apply Hinv. cbn. lia.
    + rewrite Hinv by (cbn; lia). reflexivity.
  - intros Hr. rewrite Init_released by auto. split; [reflexivity|exact Hr].
Qed.

(** C10, as amended. Calling [Init] with valid arguments on a pool that is
    already initialized and not released succeeds again: the free list is
    replaced by one holding [count] freshly allocated buffers, the stored
    capacity and buffer size are updated, and [Available] is [count].  The
    buffers that existed before the call, those held by consumers among
    them, are left as they were and are not in the new free list when
    [Init] returns. *)
Theorem reInit_replaces_free_list s count size :
  Pool.isInitialized (pool s) = true ->
  Pool.isReleased (pool s) <> 1 ->
  0 < count -> 0 < size ->
  exists s',
    Init count size s = Ok s' None /\
    free_list s' = seq (length (heap s)) (Z.to_nat count) /\
    (forall a, a ∈ free_list s' -> heap s' !! a = Some (fresh size)) /\
    Pool.bufCount (pool s') = count /\
    Pool.bufSize (pool s') = size /\
    Available s' = count /\
    forall a b, heap s !! a = Some b ->
                heap s' !! a = Some b /\ a ∉ free_list s'.
Proof.
  intros _ Hr Hc Hs. exists (initialized s count size).
  split; [apply Init_ok; auto|].
  unfold Available, free_list, initialized.
  cbn [pool heap Pool.isReleased Pool.buffers Pool.bufCount Pool.bufSize
       Chan.len Chan.queue].
  destruct (Z.eqb_spec (Pool.isReleased (pool s)) 1); [contradiction|].
  rewrite length_seq. repeat split; try lia.
  - intros a Ha. apply fresh_lookup; auto.
  - now apply lookup_app_l_Some.
  - intros Hin. apply elem_of_seq in Hin.
    match goal with Hab : heap s !! _ = Some _ |- _ =>
      apply lookup_lt_Some in Hab end.
    lia.
Qed.

(** ** Further properties of the pool and its buffers *)

(** The fill loop allocates fresh buffers and nothing else. *)
Lemma fill_heap_fresh n size : forall s,
  exists k, heap (state_of (fill n size s))
            = heap s ++ replicate k (fresh size).
Proof.
  induction n as [|n IH]; intros s.
  - exists O. simpl. now rewrite app_nil_r.
  - cbn [fill]. unfold bind at 1. unfold newBuffer.
    destruct (size <? 0).
    + exists O. simpl. now rewrite app_nil_r.
    + unfold alloc. unfold bind at 1. unfold chan_send, bind, get_pool.
      cbn [pool heap forwarders].
      destruct (Chan.send _ _) as [ch'| |]; unfold modify_pool, block, panic.
      * destruct (IH (mkState (heap s ++ [fresh size])
                        (Pool.set_buffers (Some ch') (pool s))
                        (forwarders s))) as [k Hk].
        exists (S k). cbn [heap pool forwarders] in *.
        unfold fresh in *. rewrite Hk. now rewrite <- app_assoc.
      * exists 1%nat. reflexivity.
      * exists 1%nat. reflexivity.
Qed.

(** Every call changes the heap in one of the ways of [heap_change]. *)
Lemma step_heap_change op s : heap_change (heap s) op (heap (step op s)).
Proof.
  destruct op as [c n| | | | | |a len|a|a|a|a i x|a]; cbn [step].
  - unfold Init, bind at 1. unfold get_pool.
    destruct (Pool.isReleased (pool s) =? 1); [apply hc_same|].
    destruct ((c <=? 0) || (n <=? 0)); [apply hc_same|].
    unfold bind, modify_pool. cbn [heap pool forwarders].
    match goal with |- context [fill ?k ?z ?st] =>
      destruct (fill_heap_fresh k z st) as [k' Hk'];
      destruct (fill k z st) end;
      cbn [state_of heap] in *; rewrite Hk'; apply hc_alloc.
  - unfold BufferChan, bind, get_pool.
    destruct (Pool.isReleased (pool s) =? 1); apply hc_same.
  - destruct (Acquire_heap s) as [->|(a & s1 & Hs1)]; [apply hc_same|].
    rewrite Hs1. cbn [state_of].
    destruct (Acquire_inv s s1 a Hs1)
      as (ch & q & b & _ & _ & _ & Hb & _ & ->).
    cbn [taken heap]. now apply hc_acquire.
  - unfold Reset, bind at 1. unfold get_pool.
    destruct (Pool.isReleased (pool s) =? 1); [apply hc_same|].
    destruct (negb (Pool.isInitialized (pool s))); [apply hc_same|].
    unfold bind, chan_drain, modify_pool. cbn [heap pool forwarders].
    match goal with |- context [fill ?k ?z ?st] =>
      destruct (fill_heap_fresh k z st) as [k' Hk'] end.
    cbn [heap] in Hk'. rewrite Hk'. apply hc_alloc.
  - apply hc_same.
  - rewrite Pool_Release_heap. apply hc_same.
  - unfold Buffer_SetLength, bind, load, store.
    destruct (heap s !! a) as [b|] eqn:Hb; cbn [state_of heap];
      [now apply hc_setlength | apply hc_same].
  - unfold Buffer_GetLength, bind, load.
    destruct (heap s !! a); apply hc_same.
  - unfold Buffer_GetValidData, bind, load.
    destruct (heap s !! a) as [b|]; [|apply hc_same].
    destruct (Buffer.GetValidData b); apply hc_same.
  - unfold Buffer_GetFullData, bind, load.
    destruct (heap s !! a); apply hc_same.
  - unfold Buffer_write, bind, load, store.
    destruct (heap s !! a) as [b|] eqn:Hb; [|apply hc_same].
    destruct (Z.leb_spec 0 i); cbn [andb]; [|apply hc_same].
    destruct (Z.ltb_spec i (Buffer.capacity b)); [|apply hc_same].
    cbn [state_of heap]. apply hc_write; auto.
  - destruct (heap s !! a) as [b|] eqn:Hb.
    2:{ unfold Buffer_Release, bind, load. rewrite Hb. apply hc_same. }
    destruct (Z.eq_dec (Buffer.inUse b) 1) as [Hu|Hu].
    2:{ rewrite (Buffer_Release_not_owned s a b); auto. apply hc_same. }
    rewrite (Buffer_Release_heap s a b); auto. now apply hc_release.
Qed.

(** What a change of the heap does to the buffer at one address. *)
Lemma heap_change_lookup h op h' a b :
  heap_change h op h' ->
  h !! a = Some b ->
  exists b',
    h' !! a = Some b' /\
    Buffer.capacity b' = Buffer.capacity b /\
    (not_write_to a op = true -> Buffer.data b' = Buffer.data b).
Proof.
  intros Hch Hb.
  assert (a < length h)%nat as Hlt by (eapply lookup_lt_Some; eauto).
  destruct Hch as [op|op k size|a0 b0 Hb0|a0 b0 Hb0|a0 len b0 Hb0
                   |a0 i v b0 Hb0 Hi].
  - exists b. auto.
  - exists b. split; [now apply lookup_app_l_Some|auto].
  - destruct (decide (a0 = a)) as [->|Hne].
    + eexists. split; [now apply list_lookup_insert_eq|].
      rewrite Hb in Hb0. injection Hb0 as <-. auto.
    + exists b. rewrite list_lookup_insert_ne; auto.
  - destruct (decide (a0 = a)) as [->|Hne].
    + eexists. split; [now apply list_lookup_insert_eq|].
      rewrite Hb in Hb0. injection Hb0 as <-. auto.
    + exists b. rewrite list_lookup_insert_ne; auto.
  - destruct (decide (a0 = a)) as [->|Hne].
    + eexists. split; [now apply list_lookup_insert_eq|].
      rewrite Hb in Hb0. injection Hb0 as <-. auto.
    + exists b. rewrite list_lookup_insert_ne; auto.
  - destruct (decide (a0 = a)) as [->|Hne].
    + eexists. split; [now apply list_lookup_insert_eq|].
      rewrite Hb in Hb0. injection Hb0 as <-. split.
      * unfold Buffer.capacity. cbn [Buffer.data].
        now rewrite length_insert.
      * cbn [not_write_to]. rewrite Nat.eqb_refl. discriminate.
    + exists b. rewrite list_lookup_insert_ne; auto.
Qed.

(** X1. A buffer is never moved, dropped or resized: after any calls it is
    still at its address with the capacity it was made with; and unless a
    call wrote into it through its slice, it still has its contents, so
    [Release] and a later [Acquire] hand the old data on. *)
Theorem buffer_capacity_and_data_kept ops : forall s a b,
  heap s !! a = Some b ->
  exists b',
    heap (run ops s) !! a = Some b' /\
    Buffer.capacity b' = Buffer.capacity b /\
    (forallb (not_write_to a) ops = true ->
     Buffer.data b' = Buffer.data b).
Proof.
  induction ops as [|op ops IH]; intros s a b Hb.
  { exists b. auto. }
  destruct (heap_change_lookup _ op _ a b (step_heap_change op s) Hb)
    as (b1 & Hb1 & Hcap1 & Hdata1).
  destruct (IH (step op s) a b1 Hb1) as (b2 & Hb2 & Hcap2 & Hdata2).
  exists b2. cbn [run foldl]. fold (run ops (step op s)).
  split; [exact Hb2|]. split; [congruence|].
  cbn [forallb]. intros Hall. apply andb_prop in Hall as [H1 H2].
  rewrite Hdata2, Hdata1; auto.
Qed.

(** How a change of the heap treats the lengths. *)
Lemma heap_change_lengths h op h' (lower : bool) :
  heap_change h op h' ->
  (lower = true -> nonneg_SetLength op = true) ->
  (forall a b, h !! a = Some b ->
     Buffer.length b <= Buffer.capacity b /\
     (lower = true -> 0 <= Buffer.length b)) ->
  forall a b, h' !! a = Some b ->
    Buffer.length b <= Buffer.capacity b /\
    (lower = true -> 0 <= Buffer.length b).
Proof.
  intros Hch Hop Hinv a b Hb.
  assert (forall x : Buffer.t T, 0 <= Buffer.capacity x) as Hcap0.
  { intros x. unfold Buffer.capacity. lia. }
  destruct Hch as [op|op k size|a0 b0 Hb0|a0 b0 Hb0|a0 len b0 Hb0
                   |a0 i v b0 Hb0 Hi].
  - eauto.
  - apply lookup_app_Some in Hb as [Hb|[_ Hb]]; [eauto|].
    apply lookup_replicate in Hb as [-> _].
    pose proof (Hcap0 (fresh size)). cbn [fresh Buffer.length] in *.
    split; [assumption | intros _; lia].
  - apply list_lookup_insert_Some in Hb as [(-> & <- & _)|(_ & Hb)]; eauto.
    destruct (Hinv _ _ Hb0). auto.
  - apply list_lookup_insert_Some in Hb as [(-> & <- & _)|(_ & Hb)]; eauto.
    rewrite freed_length. pose proof (Hcap0 (freed b0)).
    split; [assumption | intros _; lia].
  - apply list_lookup_insert_Some in Hb as [(-> & <- & _)|(_ & Hb)]; eauto.
    unfold Buffer.SetLength, Buffer.capacity. cbn.
    pose proof (Hcap0 b0) as Hc. unfold Buffer.capacity in Hc.
    split.
    + destruct (Z.gtb_spec len (Z.of_nat (length (Buffer.data b0)))); lia.
    + intros Hl. specialize (Hop Hl). cbn in Hop.
      destruct (Z.gtb_spec len (Z.of_nat (length (Buffer.data b0)))); lia.
  - apply list_lookup_insert_Some in Hb as [(-> & <- & _)|(_ & Hb)]; eauto.
    destruct (Hinv _ _ Hb0) as [Hup Hlow].
    unfold Buffer.capacity in *. cbn. rewrite length_insert. auto.
Qed.

Lemma run_lengths (lower : bool) ops : forall s,
  (lower = true -> forallb nonneg_SetLength ops = true) ->
  (forall a b, heap s !! a = Some b ->
     Buffer.length b <= Buffer.capacity b /\
     (lower = true -> 0 <= Buffer.length b)) ->
  forall a b, heap (run ops s) !! a = Some b ->
    Buffer.length b <= Buffer.capacity b /\
    (lower = true -> 0 <= Buffer.length b).
Proof.
  induction ops as [|op ops IH]; intros s Hops Hinv; [exact Hinv|].
  cbn [run foldl]. fold (run ops (step op s)). apply IH.
  - intros Hl. specialize (Hops Hl). cbn [forallb] in Hops.
    now apply andb_prop in Hops as [_ ?].
  - apply (heap_change_lengths (heap s) op); auto using step_heap_change.
    intros Hl. specialize (Hops Hl). cbn [forallb] in Hops.
    now apply andb_prop in Hops as [? _].
Qed.

(** X2. The valid length never exceeds the capacity, whatever calls were
    made since [NewPool]; and it is never negative as long as no
    [SetLength] was given a negative argument. *)
Theorem length_within_capacity ops a b :
  heap (run ops NewPool) !! a = Some b ->
  Buffer.length b <= Buffer.capacity b /\
  (forallb nonneg_SetLength ops = true -> 0 <= Buffer.length b).
Proof.
  intros Hb.
  assert (forall a0 b0 lower, heap NewPool !! a0 = Some b0 ->
            Buffer.length b0 <= Buffer.capacity b0 /\
            (lower = true -> 0 <= Buffer.length b0)) as Hnew.
  { intros a0 b0 lower H0. cbn in H0. rewrite lookup_nil in H0.
    discriminate. }
  split.
  - assert (false = true -> forallb nonneg_SetLength ops = true) as Hno
      by discriminate.
    exact (proj1 (run_lengths false ops NewPool Hno
                    (fun a0 b0 => Hnew a0 b0 false) a b Hb)).
  - intros Hops.
    exact (proj2 (run_lengths true ops NewPool (fun _ => Hops)
                    (fun a0 b0 => Hnew a0 b0 true) a b Hb) eq_refl).
Qed.


(** X3. [SetLength] clamps and the reads agree with it: after
    [SetLength(n)] with [n >= 0] on a buffer of capacity [C], [GetLength]
    returns [min n C], [GetValidData] returns the first [min n C] elements
    of the storage, as many as [GetLength] says, and [GetFullData] still
    returns the whole storage. *)
Theorem SetLength_then_read s a b n :
  heap s !! a = Some b ->
  0 <= n ->
  let m := Z.min n (Buffer.capacity b) in
  let s' := state_of (Buffer_SetLength n a s) in
  Buffer_SetLength n a s = Ok s' tt /\
  Buffer_GetLength a s' = Ok s' m /\
  Buffer_GetValidData a s' = Ok s' (take (Z.to_nat m) (Buffer.data b)) /\
  Z.of_nat (length (take (Z.to_nat m) (Buffer.data b))) = m /\
  Buffer_GetFullData a s' = Ok s' (Buffer.data b).
Proof.
  intros Hb Hn m s'.
  assert (a < length (heap s))%nat as Hlt by (eapply lookup_lt_Some; eauto).
  assert (Buffer_SetLength n a s
          = Ok (mkState (<[a := Buffer.SetLength n b]> (heap s)) (pool s)
                  (forwarders s)) tt) as Hset.
  { unfold Buffer_SetLength, bind, load, store. now rewrite Hb. }
  subst s'. rewrite Hset. cbn [state_of].
  assert (Buffer.length (Buffer.SetLength n b) = m) as Hlen.
  { unfold Buffer.SetLength. cbn [Buffer.length]. subst m.
    destruct (Z.gtb_spec n (Buffer.capacity b)); lia. }
  assert (0 <= Buffer.capacity b) as Hcap
    by (unfold Buffer.capacity; lia).
  split; [reflexivity|].
  split.
  { unfold Buffer_GetLength, bind, load, ret. cbn [heap].
    rewrite list_lookup_insert_eq by auto.
    unfold Buffer.GetLength. now rewrite Hlen. }
  split.
  { unfold Buffer_GetValidData, bind, load, ret. cbn [heap].
    rewrite list_lookup_insert_eq by auto.
    unfold Buffer.GetValidData. rewrite Hlen.
    replace (Buffer.capacity (Buffer.SetLength n b))
      with (Buffer.capacity b) by reflexivity.
    destruct (Z.leb_spec 0 m); [|subst m; lia].
    destruct (Z.leb_spec m (Buffer.capacity b)); [|subst m; lia].
    reflexivity. }
  split.
  { rewrite length_take. unfold Buffer.capacity in *. subst m. lia. }
  unfold Buffer_GetFullData, bind, load, ret. cbn [heap].
  rewrite list_lookup_insert_eq by auto. reflexivity.
Qed.

(** X4. A write through the slice of [GetFullData] is seen by
    [GetValidData]: after [data[i] = v] and [SetLength(n)] with
    [0 <= i < n <= C], [GetValidData] returns [n] elements, [v] at index
    [i] and the old contents elsewhere.  With [i] outside [[0, C)] the
    write panics and changes nothing. *)
Theorem write_then_read s a b i v :
  heap s !! a = Some b ->
  (forall n,
     0 <= i < n -> n <= Buffer.capacity b ->
     let s1 := state_of (Buffer_write a i v s) in
     let s2 := state_of (Buffer_SetLength n a s1) in
     exists d,
       Buffer_GetValidData a s2 = Ok s2 d /\
       Z.of_nat (length d) = n /\
       d !! Z.to_nat i = Some v /\
       forall j, j <> Z.to_nat i ->
                 d !! j = take (Z.to_nat n) (Buffer.data b) !! j) /\
  (i < 0 \/ Buffer.capacity b <= i ->
   Buffer_write a i v s = Panic "index out of range" s).
Proof.
  intros Hb.
  assert (a < length (heap s))%nat as Hlt by (eapply lookup_lt_Some; eauto).
  split.
  - intros n Hi Hn s1 s2.
    set (b1 := Buffer.mk (<[Z.to_nat i := v]> (Buffer.data b))
                 (Buffer.length b) (Buffer.inUse b)).
    assert (s1 = mkState (<[a := b1]> (heap s)) (pool s) (forwarders s))
      as Hs1.
    { subst s1. unfold Buffer_write, bind, load, store. rewrite Hb.
      destruct (Z.leb_spec 0 i); [|lia].
      destruct (Z.ltb_spec i (Buffer.capacity b)); [|lia]. reflexivity. }
    assert (Buffer.capacity b1 = Buffer.capacity b) as Hcap1.
    { unfold Buffer.capacity, b1. cbn [Buffer.data].
      now rewrite length_insert. }
    assert (s2 = mkState (<[a := Buffer.SetLength n b1]> (heap s)) (pool s)
                   (forwarders s)) as Hs2.
    { subst s2. rewrite Hs1. unfold Buffer_SetLength, bind, load, store.
      cbn [heap pool forwarders].
      rewrite list_lookup_insert_eq by auto.
      cbn [state_of heap pool forwarders].
      now rewrite list_insert_insert_eq. }
    assert (Buffer.length (Buffer.SetLength n b1) = n) as Hlen.
    { unfold Buffer.SetLength. cbn [Buffer.length]. rewrite Hcap1.
      destruct (Z.gtb_spec n (Buffer.capacity b)); lia. }
    exists (take (Z.to_nat n) (<[Z.to_nat i := v]> (Buffer.data b))).
    unfold Buffer.capacity in Hn. split.
    { rewrite Hs2. unfold Buffer_GetValidData, bind, load, ret. cbn [heap].
      rewrite list_lookup_insert_eq by auto.
      unfold Buffer.GetValidData. rewrite Hlen.
      replace (Buffer.capacity (Buffer.SetLength n b1))
        with (Buffer.capacity b) by (symmetry; exact Hcap1).
      unfold Buffer.capacity.
      destruct (Z.leb_spec 0 n); [|lia].
      destruct (Z.leb_spec n (Z.of_nat (length (Buffer.data b)))); [|lia].
      reflexivity. }
    split; [rewrite length_take, length_insert; lia|]. split.
    + rewrite lookup_take_lt by lia. apply list_lookup_insert_eq. lia.
    + intros j Hj. destruct (decide (j < Z.to_nat n)%nat).
      * rewrite !lookup_take_lt by lia.
        now rewrite list_lookup_insert_ne by auto.
      * rewrite !lookup_take_ge by lia. reflexivity.
  - intros Hout. unfold Buffer_write, bind, load. rewrite Hb.
    destruct (Z.leb_spec 0 i); cbn [andb]; [|reflexivity].
    destruct (Z.ltb_spec i (Buffer.capacity b)); [lia|reflexivity].
Qed.


(** The stored buffer count is never negative. *)
Lemma step_bufCount op s :
  wf s ->
  0 <= Pool.bufCount (pool s) ->
  0 <= Pool.bufCount (pool (step op s)).
Proof.
  intros Hwf Hbc.
  destruct (uses_buffer op) eqn:Huse.
  { destruct (uses_buffer_step op s Huse) as [-> _]. exact Hbc. }
  destruct op as [c n| | | | | |a len|a|a|a|a i x|a];
    try discriminate; cbn [step].
  - destruct (Z.eq_dec (Pool.isReleased (pool s)) 1) as [Hr|Hr].
    { rewrite Init_released; auto. }
    destruct (Z_lt_le_dec 0 c) as [Hc|Hc].
    2:{ rewrite Init_invalid; auto. }
    destruct (Z_lt_le_dec 0 n) as [Hn|Hn].
    2:{ rewrite Init_invalid; auto. }
    rewrite Init_ok; auto. cbn. lia.
  - unfold BufferChan, bind, get_pool.
    destruct (Pool.isReleased (pool s) =? 1); exact Hbc.
  - destruct (Acquire_heap s) as [_|(a & s1 & Hs1)].
    + unfold Acquire. cbn [Acquire_rec].
      destruct (Z.eqb_spec (Pool.isReleased (pool s)) 1); [exact Hbc|].
      destruct (Chan.recv (Pool.buffers (pool s))) as [a ch| |];
        try exact Hbc.
      unfold load. cbn [heap].
      destruct (heap s !! a) as [b|] eqn:Hb; [|exact Hbc].
      destruct (Z.eqb_spec (Buffer.inUse b) 0); [exact Hbc|].
      rewrite (put_in_use a _ b); auto.
    + rewrite Hs1.
      destruct (Acquire_inv s s1 a Hs1)
        as (ch & q & b & _ & _ & _ & _ & _ & ->).
      exact Hbc.
  - destruct (Z.eq_dec (Pool.isReleased (pool s)) 1) as [Hr|Hr].
    { rewrite Reset_skip; auto. }
    destruct (Pool.isInitialized (pool s)) eqn:Hi.
    2:{ rewrite Reset_skip; auto. }
    destruct (wf_initialized_chan s Hwf Hi) as (_ & ch & Hc).
    destruct (wf_open s ch Hwf Hc Hr) as (Hcl & _ & _ & Hcap & Hb & Hbs).
    rewrite (Reset_ok s ch); auto; try lia.
  - destruct (Z.eq_dec (Pool.isReleased (pool s)) 0) as [Hr|Hr].
    2:{ rewrite Pool_Release_again; auto. }
    destruct (Pool.buffers (pool s)) as [ch|] eqn:Hc.
    + destruct (wf_open s ch Hwf Hc) as (Hcl & _); [lia|].
      rewrite (Pool_Release_open s ch); auto. cbn. lia.
    + rewrite Pool_Release_nil; auto.
  - destruct (heap s !! a) as [b|] eqn:Hb.
    2:{ unfold Buffer_Release, bind, load. rewrite Hb. exact Hbc. }
    destruct (Z.eq_dec (Buffer.inUse b) 1) as [Hu|Hu].
    2:{ rewrite (Buffer_Release_not_owned s a b); auto. }
    destruct (Z.eq_dec (Pool.isReleased (pool s)) 1) as [Hr|Hr].
    { rewrite (Buffer_Release_released s a b); auto. }
    rewrite (Buffer_Release_send s a b); auto. cbv zeta.
    destruct (Chan.send _ _); exact Hbc.
Qed.

Lemma reachable_bufCount s : reachable s -> 0 <= Pool.bufCount (pool s).
Proof.
  induction 1 as [|s op Hreach IH]; [cbn; lia|].
  apply step_bufCount; auto using reachable_wf.
Qed.

(** X5. Exclusive ownership: in every reachable state the free list holds
    no buffer twice, every buffer in it is marked free, a buffer marked in
    use is not in it, and [Available] lies between 0 and the stored buffer
    count. *)
Theorem ownership_invariant s :
  reachable s ->
  NoDup (free_list s) /\
  (forall a, a ∈ free_list s -> inUse_at s a 0) /\
  (forall a, inUse_at s a 1 -> a ∉ free_list s) /\
  0 <= Available s <= Pool.bufCount (pool s).
Proof.
  intros Hreach. pose proof (reachable_wf s Hreach) as Hwf.
  pose proof (reachable_bufCount s Hreach) as Hbc.
  destruct Hwf as (H1 & H2 & H3 & H4).
  split.
  { unfold free_list. destruct (Pool.buffers (pool s)) as [ch|].
    - destruct H3 as (_ & Hnd & _). exact Hnd.
    - apply NoDup_nil_2. }
  split; [exact H4|]. split.
  { intros a (b & Hb & Hu) Hin. destruct (H4 a Hin) as (b0 & Hb0 & Hu0).
    rewrite Hb in Hb0. injection Hb0 as <-. lia. }
  unfold Available.
  destruct (Z.eqb_spec (Pool.isReleased (pool s)) 1) as [Hr|Hr]; [lia|].
  destruct (Pool.buffers (pool s)) as [ch|] eqn:Hc; cbn [Chan.len]; [|lia].
  destruct H3 as (Hlen & _ & Hcl).
  destruct (Chan.closed ch); [destruct Hcl; contradiction|].
  destruct Hcl as (_ & _ & Hcap & _). lia.
Qed.

(** X6. [Acquire] is first in, first out and never fails in a reachable
    state: with nothing available it returns not-found and changes
    nothing; otherwise it returns the head of the free list, removes it
    from the list, lowers [Available] by one and changes nothing in the
    heap but that buffer's flag. *)
Theorem Acquire_fifo s :
  reachable s ->
  (Available s = 0 -> Acquire s = Ok s None) /\
  (0 < Available s ->
   exists a q b s1,
     free_list s = a :: q /\
     heap s !! a = Some b /\
     Acquire s = Ok s1 (Some a) /\
     free_list s1 = q /\
     Available s1 = Available s - 1 /\
     heap s1 = <[a := Buffer.set_inUse 1 b]> (heap s)).
Proof.
  intros Hreach. pose proof (reachable_wf s Hreach) as Hwf.
  unfold Available.
  destruct (Z.eqb_spec (Pool.isReleased (pool s)) 1) as [Hr|Hr].
  { split; [intros _; now apply Acquire_released | lia]. }
  destruct (Pool.buffers (pool s)) as [ch|] eqn:Hc.
  2:{ split; [|cbn; lia]. intros _. apply Acquire_empty.
      - unfold free_list. now rewrite Hc.
      - intros ch' Hch'. congruence. }
  destruct (wf_open s ch Hwf Hc Hr) as (Hcl & _).
  cbn [Chan.len]. destruct (Chan.queue ch) as [|a q] eqn:Hq.
  { split; [|cbn; lia]. intros _. apply Acquire_empty.
    - unfold free_list. now rewrite Hc.
    - intros ch' Hch'. congruence. }
  split; [cbn [length]; lia|]. intros _.
  destruct Hwf as (_ & _ & _ & H4). destruct (H4 a) as (b & Hb & Hu).
  { unfold free_list. rewrite Hc, Hq. apply elem_of_cons. now left. }
  exists a, q, b, (taken s a ch q b).
  split; [unfold free_list; now rewrite Hc|].
  split; [exact Hb|].
  split; [now apply Acquire_free|].
  split; [reflexivity|]. split; [|reflexivity].
  cbn [taken pool Pool.set_buffers Pool.isReleased Pool.buffers].
  destruct (Z.eqb_spec (Pool.isReleased (pool s)) 1); [contradiction|].
  cbn [Chan.len Chan.queue length]. lia.
Qed.


(** In a well-formed state [Available] is the length of the free list. *)
Lemma wf_Available s : wf s -> Available s = Z.of_nat (length (free_list s)).
Proof.
  intros (H1 & H2 & H3 & H4). unfold Available, free_list.
  destruct (Z.eqb_spec (Pool.isReleased (pool s)) 1) as [Hr|Hr].
  - destruct (Pool.buffers (pool s)) as [ch|]; [|reflexivity].
    destruct H3 as (_ & _ & Hcl).
    destruct (Chan.closed ch); [|lia].
    destruct Hcl as [_ ->]. reflexivity.
  - destruct (Pool.buffers (pool s)); reflexivity.
Qed.

Lemma wf_Acquire_none s :
  wf s -> free_list s = [] -> Acquire s = Ok s None.
Proof.
  intros Hwf Hfl.
  destruct (Z.eq_dec (Pool.isReleased (pool s)) 1) as [Hr|Hr].
  { now apply Acquire_released. }
  apply Acquire_empty; auto.
  intros ch Hc. now destruct (wf_open s ch Hwf Hc Hr).
Qed.

Lemma acquire_many_empty k s :
  wf s -> free_list s = [] -> acquire_many k s = Ok s (replicate k None).
Proof.
  intros Hwf Hfl. induction k as [|k IH]; [reflexivity|].
  cbn [acquire_many replicate]. unfold bind.
  rewrite wf_Acquire_none by auto. rewrite IH. reflexivity.
Qed.

(** The first [k] calls of the loop take the first [k] buffers of the free
    list, in order, and mark them in use. *)
Lemma acquire_many_take k : forall s,
  wf s ->
  (k <= length (free_list s))%nat ->
  exists s',
    acquire_many k s = Ok s' (Some <$> take k (free_list s)) /\
    wf s' /\
    free_list s' = drop k (free_list s) /\
    free_cap s' = free_cap s /\
    Pool.isReleased (pool s') = Pool.isReleased (pool s) /\
    (forall a, a ∈ take k (free_list s) -> inUse_at s' a 1) /\
    (forall a v, a ∉ take k (free_list s) ->
                 inUse_at s a v -> inUse_at s' a v).
Proof.
  induction k as [|k IH]; intros s Hwf Hk.
  { exists s. rewrite take_0, drop_0.
    split; [reflexivity|]. split; [exact Hwf|].
    split; [reflexivity|]. split; [reflexivity|]. split; [reflexivity|].
    split; [|auto].
    intros a Ha. apply elem_of_nil in Ha. contradiction. }
  pose proof Hwf as (H1 & H2 & H3 & H4).
  unfold free_list in Hk, H4 |- *. unfold free_cap.
  destruct (Pool.buffers (pool s)) as [ch|] eqn:Hc; [|cbn in Hk; lia].
  destruct (Chan.queue ch) as [|a q] eqn:Hq; [cbn in Hk; lia|].
  cbn [length] in Hk.
  assert (Pool.isReleased (pool s) <> 1) as Hr.
  { destruct H3 as (_ & _ & Hcl). destruct (Chan.closed ch).
    - destruct Hcl as [_ Hnil]. rewrite Hq in Hnil. discriminate.
    - destruct Hcl as [-> _]. lia. }
  destruct H3 as (_ & Hnd & _). rewrite Hq in Hnd.
  apply NoDup_cons in Hnd as [Hnotin _].
  destruct (H4 a) as (b & Hb & Hu); [apply elem_of_cons; now left|].
  assert (wf (taken s a ch q b)) as Hwf1 by (apply wf_taken; auto).
  destruct (IH (taken s a ch q b) Hwf1) as
    (s' & Hacq & Hwf' & Hfl' & Hcap' & Hrel' & Htaken & Hframe).
  { unfold free_list. cbn. lia. }
  unfold free_list, free_cap in Hacq, Hfl', Hcap', Htaken, Hframe.
  cbn [taken pool Pool.set_buffers Pool.buffers Chan.queue Chan.cap
       Pool.isReleased] in Hacq, Hfl', Hcap', Hrel', Htaken, Hframe.
  exists s'. cbn [acquire_many take drop fmap list_fmap]. unfold bind.
  rewrite (Acquire_free s ch a q b) by auto. rewrite Hacq.
  split; [reflexivity|]. split; [exact Hwf'|].
  split; [exact Hfl'|]. split; [exact Hcap'|]. split; [exact Hrel'|].
  assert (a < length (heap s))%nat as Hlt by (eapply lookup_lt_Some; eauto).
  split.
  - intros a' Ha'. apply elem_of_cons in Ha' as [->|Ha']; [|now apply Htaken].
    apply Hframe.
    + intros Hin. apply Hnotin. apply elem_of_take in Hin as (i & Hi & _).
      eapply list_elem_of_lookup_2; eauto.
    + exists (Buffer.set_inUse 1 b). split; [|reflexivity].
      cbn [taken heap]. now apply list_lookup_insert_eq.
  - intros a' v Ha' (b' & Hb' & Hu'). apply Hframe.
    + intros Hin. apply Ha'. apply elem_of_cons. now right.
    + exists b'. split; [|exact Hu']. cbn [taken heap].
      rewrite list_lookup_insert_ne; auto.
      intros ->. apply Ha'. apply elem_of_cons. now left.
Qed.

Lemma acquire_many_app n k : forall s s1 rs1,
  acquire_many n s = Ok s1 rs1 ->
  acquire_many (n + k) s
  = match acquire_many k s1 with
    | Ok s2 rs2 => Ok s2 (rs1 ++ rs2)
    | Panic msg s2 => Panic msg s2
    | Block s2 => Block s2
    end.
Proof.
  induction n as [|n IH]; intros s s1 rs1 Hn.
  - cbn in Hn. injection Hn as <- <-. cbn [Nat.add app].
    destruct (acquire_many k s); reflexivity.
  - cbn [acquire_many Nat.add] in Hn |- *. unfold bind in Hn |- *.
    destruct (Acquire s) as [s0 r| |]; try discriminate.
    destruct (acquire_many n s0) as [s0' rs| |] eqn:Hrec; try discriminate.
    unfold ret in Hn. injection Hn as <- <-.
    rewrite (IH s0 s0' rs Hrec).
    destruct (acquire_many k s0'); reflexivity.
Qed.

(** X7. Exhaustion: in a reachable state, a client that keeps calling
    [Acquire] is handed every buffer of the free list, in its order, and
    from then on gets not-found from every call; no call panics or
    blocks. *)
Theorem acquire_until_exhausted s k :
  reachable s ->
  exists s',
    acquire_many (length (free_list s) + k) s
    = Ok s' ((Some <$> free_list s) ++ replicate k None) /\
    Available s' = 0 /\
    free_list s' = [] /\
    forall a, a ∈ free_list s -> inUse_at s' a 1.
Proof.
  intros Hreach. pose proof (reachable_wf s Hreach) as Hwf.
  destruct (acquire_many_take (length (free_list s)) s Hwf)
    as (s' & Hacq & Hwf' & Hfl' & _ & _ & Htaken & _); [lia|].
  rewrite take_ge in Hacq, Htaken by lia. rewrite drop_ge in Hfl' by lia.
  exists s'. rewrite (acquire_many_app _ k s s' _ Hacq).
  rewrite acquire_many_empty by auto.
  split; [reflexivity|]. split; [|auto].
  rewrite wf_Available by auto. now rewrite Hfl'.
Qed.

(** Releasing buffers that are in use, while the free list has room for
    them, succeeds and appends them to the free list in order. *)
Lemma release_all_ok l : forall s,
  wf s ->
  Pool.isReleased (pool s) <> 1 ->
  NoDup l ->
  (forall a, a ∈ l -> inUse_at s a 1) ->
  Z.of_nat (length (free_list s)) + Z.of_nat (length l) <= free_cap s ->
  exists s',
    release_all l s = Ok s' tt /\
    wf s' /\
    free_list s' = free_list s ++ l /\
    (forall a, a ∈ l ->
       exists b, heap s' !! a = Some b /\
                 Buffer.inUse b = 0 /\ Buffer.length b = 0) /\
    (forall a, a ∉ l -> heap s' !! a = heap s !! a).
Proof.
  induction l as [|a l IH]; intros s Hwf Hr Hnd Huse Hroom.
  { exists s. rewrite app_nil_r.
    split; [reflexivity|]. split; [exact Hwf|]. split; [reflexivity|].
    split; [|auto].
    intros a Ha. apply elem_of_nil in Ha. contradiction. }
  apply NoDup_cons in Hnd as [Hnotin Hnd].
  destruct (Huse a) as (b & Hb & Hu); [apply elem_of_cons; now left|].
  assert (a < length (heap s))%nat as Hlt by (eapply lookup_lt_Some; eauto).
  unfold free_list, free_cap in Hroom |- *.
  destruct (Pool.buffers (pool s)) as [ch|] eqn:Hc;
    [|cbn [length] in Hroom; lia].
  destruct (wf_open s ch Hwf Hc Hr) as (Hcl & _).
  cbn [length] in Hroom.
  set (s1 := mkState (<[a := freed b]> (heap s))
               (Pool.set_buffers
                  (Some (Chan.mk (Chan.cap ch) (Chan.queue ch ++ [a]) false))
                  (pool s))
               (forwarders s)).
  assert (Buffer_Release a s = Ok s1 tt) as Hrel.
  { apply Buffer_Release_ok; auto. lia. }
  assert (wf s1) as Hwf1 by (apply wf_enqueued; auto; lia).
  destruct (IH s1 Hwf1) as (s' & Hall & Hwf' & Hfl' & Hfreed & Hframe);
    auto.
  { intros a' Ha'. destruct (Huse a') as (b' & Hb' & Hu').
    { apply elem_of_cons. now right. }
    exists b'. split; [|exact Hu']. cbn [s1 heap].
    rewrite list_lookup_insert_ne; auto. intros ->. contradiction. }
  { unfold free_list, free_cap. cbn [s1 pool Pool.set_buffers Pool.buffers
      Chan.queue Chan.cap]. rewrite length_app. cbn [length]. lia. }
  unfold free_list in Hfl'.
  cbn [s1 pool Pool.set_buffers Pool.buffers Chan.queue] in Hfl'.
  exists s'. cbn [release_all]. unfold bind. rewrite Hrel.
  split; [exact Hall|]. split; [exact Hwf'|].
  split; [rewrite Hfl', <- app_assoc; reflexivity|]. split.
  - intros a' Ha'. apply elem_of_cons in Ha' as [->|Ha']; [|now apply Hfreed].
    exists (freed b). rewrite (Hframe a Hnotin). cbn [s1 heap].
    rewrite list_lookup_insert_eq by auto.
    split; [reflexivity|]. split; [reflexivity | apply freed_length].
  - intros a' Ha'. rewrite Hframe.
    + cbn [s1 heap]. rewrite list_lookup_insert_ne; auto.
      intros ->. apply Ha'. apply elem_of_cons. now left.
    + intros Hin. apply Ha'. apply elem_of_cons. now right.
Qed.

(** X8. Acquire and release in bulk: in a reachable state with at least
    [k] buffers available, [k] calls of [Acquire] return the first [k]
    buffers of the free list and lower [Available] by [k]; releasing these
    buffers then succeeds for each, brings [Available] back, moves them to
    the back of the free list and leaves each with length 0. *)
Theorem acquire_release_cycle s k :
  reachable s ->
  (k <= length (free_list s))%nat ->
  let got := take k (free_list s) in
  exists s1 s2,
    acquire_many k s = Ok s1 (Some <$> got) /\
    Available s1 = Available s - Z.of_nat k /\
    release_all got s1 = Ok s2 tt /\
    Available s2 = Available s /\
    free_list s2 = drop k (free_list s) ++ got /\
    forall a, a ∈ got -> Buffer_GetLength a s2 = Ok s2 0.
Proof.
  intros Hreach Hk got. pose proof (reachable_wf s Hreach) as Hwf.
  destruct (acquire_many_take k s Hwf Hk)
    as (s1 & Hacq & Hwf1 & Hfl1 & Hcap1 & Hrel1 & Htaken & _).
  fold got in Hacq, Htaken.
  assert (NoDup (free_list s)) as Hnd.
  { destruct Hwf as (_ & _ & H3 & _). unfold free_list.
    destruct (Pool.buffers (pool s)) as [ch|]; [|apply NoDup_nil_2].
    now destruct H3 as (_ & Hnd & _). }
  assert (length got = k) as Hgot by (subst got; rewrite length_take; lia).
  assert (Available s1 = Available s - Z.of_nat k) as Hav1.
  { rewrite !wf_Available by auto. rewrite Hfl1, length_drop. lia. }
  destruct k as [|k].
  { exists s1, s1. subst got. rewrite take_0 in *. rewrite drop_0 in *.
    cbn in Hacq. injection Hacq as <-.
    split; [reflexivity|]. split; [exact Hav1|].
    split; [reflexivity|]. split; [reflexivity|].
    split; [now rewrite app_nil_r|].
    intros a Ha. apply elem_of_nil in Ha. contradiction. }
  assert (Pool.isReleased (pool s) <> 1 /\
          Z.of_nat (length (free_list s)) <= free_cap s) as [Hr Hroom].
  { destruct Hwf as (H1 & H2 & H3 & H4). unfold free_list, free_cap in *.
    destruct (Pool.buffers (pool s)) as [ch|]; [|cbn in Hk; lia].
    destruct H3 as (Hlen & _ & Hcl). split; [|exact Hlen].
    destruct (Chan.closed ch).
    - destruct Hcl as [_ Hnil]. rewrite Hnil in Hk. cbn in Hk. lia.
    - destruct Hcl as [-> _]. lia. }
  destruct (release_all_ok got s1 Hwf1)
    as (s2 & Hall & Hwf2 & Hfl2 & Hfreed & _); auto.
  { congruence. }
  { subst got. rewrite <- (take_drop (S k) (free_list s)) in Hnd.
    apply NoDup_app in Hnd. tauto. }
  { rewrite Hfl1, Hcap1, length_drop, Hgot. lia. }
  exists s1, s2. split; [exact Hacq|]. split; [exact Hav1|].
  split; [exact Hall|]. split.
  { rewrite !wf_Available by auto.
    rewrite Hfl2, Hfl1, length_app, length_drop, Hgot. lia. }
  split; [now rewrite Hfl2, Hfl1|].
  intros a Ha. destruct (Hfreed a Ha) as (b & Hb & _ & Hlen).
  unfold Buffer_GetLength, bind, load, ret. rewrite Hb.
  unfold Buffer.GetLength. now rewrite Hlen.
Qed.


Lemma wf_released_empty s :
  wf s -> Pool.isReleased (pool s) = 1 -> free_list s = [].
Proof.
  intros (H1 & H2 & H3 & H4) Hr. unfold free_list.
  destruct (Pool.buffers (pool s)) as [ch|]; [|reflexivity].
  destruct H3 as (_ & _ & Hcl). destruct (Chan.closed ch).
  - now destruct Hcl.
  - destruct Hcl as [Hr0 _]. lia.
Qed.

(** X9. [Reset]: on a pool that was never initialized, or is released, it
    returns and changes nothing.  On an initialized pool in a reachable
    state it returns with a free list of [bufCount] buffers allocated by
    this call, so that buffers that were free before are dropped too;
    [Available] is [bufCount], the configuration and all existing buffers
    are untouched, and the next [Acquire] hands out the first new buffer,
    with length 0. *)
Theorem Reset_postcondition s :
  reachable s ->
  (Pool.isInitialized (pool s) = false \/ Pool.isReleased (pool s) = 1 ->
   Reset s = Ok s tt) /\
  (Pool.isInitialized (pool s) = true ->
   exists s',
     Reset s = Ok s' tt /\
     Available s' = Pool.bufCount (pool s) /\
     0 < Pool.bufCount (pool s) /\
     free_list s'
     = seq (length (heap s)) (Z.to_nat (Pool.bufCount (pool s))) /\
     (forall a, a ∈ free_list s' ->
        heap s' !! a = Some (fresh (Pool.bufSize (pool s)))) /\
     (forall a b, heap s !! a = Some b -> heap s' !! a = Some b) /\
     Pool.bufCount (pool s') = Pool.bufCount (pool s) /\
     Pool.bufSize (pool s') = Pool.bufSize (pool s) /\
     exists s'',
       Acquire s' = Ok s'' (Some (length (heap s))) /\
       Buffer_GetLength (length (heap s)) s'' = Ok s'' 0).
Proof.
  intros Hreach. pose proof (reachable_wf s Hreach) as Hwf.
  split.
  { intros [Hi|Hr]; apply Reset_skip; auto. }
  intros Hi.
  destruct (wf_initialized_chan s Hwf Hi) as (Hr0 & ch & Hc).
  assert (Pool.isReleased (pool s) <> 1) as Hr by lia.
  destruct (wf_open s ch Hwf Hc Hr) as (Hcl & _ & _ & Hcap & Hbc & Hbs).
  exists (refilled s ch).
  split; [apply Reset_ok; auto; lia|].
  assert (wf (refilled s ch)) as Hwf' by (apply wf_refilled; auto).
  set (n := Z.to_nat (Pool.bufCount (pool s))) in *.
  assert (free_list (refilled s ch) = seq (length (heap s)) n) as Hfl
    by reflexivity.
  split; [rewrite wf_Available, Hfl, length_seq by auto; subst n; lia|].
  split; [exact Hbc|]. split; [exact Hfl|]. split.
  { intros a Ha. rewrite Hfl in Ha. cbn [refilled heap].
    now apply fresh_lookup. }
  split.
  { intros a b Hb. cbn [refilled heap]. now apply lookup_app_l_Some. }
  split; [reflexivity|]. split; [reflexivity|].
  destruct n as [|n'] eqn:Hn; [subst n; lia|].
  set (a0 := length (heap s)).
  assert (heap (refilled s ch) !! a0
          = Some (fresh (Pool.bufSize (pool s)))) as Hfresh.
  { cbn [refilled heap]. fold n. rewrite Hn. apply fresh_lookup.
    apply elem_of_seq. subst a0. lia. }
  eexists. split.
  - apply (Acquire_free (refilled s ch)
             (Chan.mk (Chan.cap ch) (seq a0 (S n')) false)
             a0 (seq (S a0) n') (fresh (Pool.bufSize (pool s)))); auto.
    cbn [refilled pool Pool.set_buffers Pool.buffers]. fold n.
    now rewrite Hn.
  - unfold Buffer_GetLength, bind, load, ret. cbn [taken heap].
    rewrite list_lookup_insert_eq by (eapply lookup_lt_Some; eauto).
    reflexivity.
Qed.

(** X10. Pool teardown: on an initialized pool in a reachable state
    [Pool.Release] returns; it leaves the channel drained and closed, the
    configuration cleared and the released flag set, does not touch the
    buffers, and makes [Available] 0; calling it again changes nothing. *)
Theorem Pool_Release_initialized s :
  reachable s ->
  Pool.isInitialized (pool s) = true ->
  exists ch s',
    Pool.buffers (pool s) = Some ch /\
    Pool_Release s = Ok s' tt /\
    pool s' = Pool.mk (Some (Chan.mk (Chan.cap ch) [] true)) 0 0 false 1 /\
    heap s' = heap s /\
    Available s' = 0 /\
    Pool_Release s' = Ok s' tt.
Proof.
  intros Hreach Hi. pose proof (reachable_wf s Hreach) as Hwf.
  destruct (wf_initialized_chan s Hwf Hi) as (Hr0 & ch & Hc).
  destruct (wf_open s ch Hwf Hc) as (Hcl & _); [lia|].
  exists ch. eexists. split; [exact Hc|].
  split; [apply (Pool_Release_open s ch); auto|].
  repeat split.
Qed.

(** X11. A buffer outlives its pool: when [Pool.Release] is called in a
    reachable state while a consumer holds a buffer, the consumer's later
    [Release] of that buffer returns without panic; the buffer is marked
    free with length 0 and is not enqueued, and [Available] stays 0. *)
Theorem Buffer_Release_after_Pool_Release s a :
  reachable s ->
  inUse_at s a 1 ->
  let s1 := state_of (Pool_Release s) in
  exists s2,
    Buffer_Release a s1 = Ok s2 tt /\
    pool s2 = pool s1 /\
    free_list s2 = [] /\
    Available s2 = 0 /\
    inUse_at s2 a 0 /\
    Buffer_GetLength a s2 = Ok s2 0.
Proof.
  intros Hreach (b & Hb & Hu) s1. pose proof (reachable_wf s Hreach) as Hwf.
  assert (Pool.isReleased (pool s1) = 1) as Hr1
    by (apply Pool_Release_sets_flag; auto).
  assert (wf s1) as Hwf1 by (apply wf_Pool_Release; auto).
  assert (heap s1 !! a = Some b) as Hb1
    by (subst s1; now rewrite Pool_Release_heap).
  assert (a < length (heap s1))%nat as Hlt by (eapply lookup_lt_Some; eauto).
  eexists. split; [apply (Buffer_Release_released s1 a b); auto|].
  split; [reflexivity|].
  split; [change (free_list s1 = []); now apply wf_released_empty|].
  split; [unfold Available; cbn [pool]; now rewrite Hr1|].
  split.
  - exists (freed b). split; [|reflexivity]. cbn [heap].
    now apply list_lookup_insert_eq.
  - unfold Buffer_GetLength, bind, load, ret. cbn [heap].
    rewrite list_lookup_insert_eq by auto.
    unfold Buffer.GetLength. now rewrite freed_length.
Qed.


Lemma traffic_heap_length base op s :
  traffic base op = true -> length (heap (step op s)) = length (heap s).
Proof.
  intros Hop.
  destruct op as [c n| | | | | |a len|a|a|a|a i x|a];
    try discriminate; cbn [step]; try reflexivity.
  - destruct (Acquire_heap s) as [->|(a & s1 & Hs1)]; [reflexivity|].
    rewrite Hs1.
    destruct (Acquire_inv s s1 a Hs1)
      as (ch & q & b & _ & _ & _ & _ & _ & ->).
    cbn [state_of taken heap]. apply length_insert.
  - unfold Buffer_SetLength, bind, load, store.
    destruct (heap s !! a); cbn [state_of heap];
      [apply length_insert | reflexivity].
  - unfold Buffer_GetLength, bind, load. destruct (heap s !! a); reflexivity.
  - unfold Buffer_GetValidData, bind, load.
    destruct (heap s !! a) as [b|]; [|reflexivity].
    destruct (Buffer.GetValidData b); reflexivity.
  - unfold Buffer_GetFullData, bind, load.
    destruct (heap s !! a); reflexivity.
  - unfold Buffer_write, bind, load, store.
    destruct (heap s !! a) as [b|]; [|reflexivity].
    destruct ((0 <=? i) && (i <? Buffer.capacity b)); cbn [state_of heap];
      [apply length_insert | reflexivity].
  - destruct (heap s !! a) as [b|] eqn:Hb.
    2:{ unfold Buffer_Release, bind, load. now rewrite Hb. }
    destruct (Z.eq_dec (Buffer.inUse b) 1) as [Hu|Hu].
    2:{ now rewrite (Buffer_Release_not_owned s a b). }
    rewrite (Buffer_Release_heap s a b); auto. apply length_insert.
Qed.

(** One call of the traffic keeps every buffer of the generation either in
    the free list or in use. *)
Lemma traffic_step base n op s :
  wf s ->
  Pool.isReleased (pool s) <> 1 ->
  free_cap s = Z.of_nat n ->
  length (heap s) = (base + n)%nat ->
  (forall a, a ∈ free_list s -> a ∈ seq base n) ->
  (forall a, a ∈ seq base n -> a ∉ free_list s -> inUse_at s a 1) ->
  traffic base op = true ->
  Pool.isReleased (pool (step op s)) <> 1 /\
  free_cap (step op s) = Z.of_nat n /\
  (forall a, a ∈ free_list (step op s) -> a ∈ seq base n) /\
  (forall a, a ∈ seq base n -> a ∉ free_list (step op s) ->
             inUse_at (step op s) a 1).
Proof.
  intros Hwf Hr Hcap Hlen Hsub Hheld Hop.
  destruct (uses_buffer op) eqn:Huse.
  { destruct (uses_buffer_step op s Huse) as [Hp Hf].
    unfold free_cap, free_list in *. rewrite Hp.
    split; [exact Hr|]. split; [exact Hcap|]. split; [exact Hsub|].
    intros a Ha Hnot. apply Hf. now apply Hheld. }
  destruct op as [c k| | | | | |a len|a|a|a|a i x|a];
    try discriminate; cbn [step].
  - (* Acquire *)
    destruct (Z.eq_dec (Available s) 0) as [Hav|Hav].
    + rewrite wf_Acquire_none; auto.
      rewrite wf_Available in Hav by auto.
      destruct (free_list s); [reflexivity | cbn in Hav; lia].
    + pose proof Hwf as (_ & _ & H3 & H4).
      unfold free_cap, free_list in *.
      destruct (Pool.buffers (pool s)) as [ch|] eqn:Hc.
      2:{ exfalso. apply Hav. unfold Available. rewrite Hc.
          destruct (Pool.isReleased (pool s) =? 1); reflexivity. }
      destruct (Chan.queue ch) as [|a q] eqn:Hq.
      { exfalso. apply Hav. unfold Available. rewrite Hc. cbn. rewrite Hq.
        destruct (Pool.isReleased (pool s) =? 1); reflexivity. }
      destruct H3 as (_ & Hnd & _). rewrite Hq in Hnd.
      apply NoDup_cons in Hnd as [Hnotin _].
      destruct (H4 a) as (b & Hb & Hu); [apply elem_of_cons; now left|].
      rewrite (Acquire_free s ch a q b); auto.
      cbn [state_of taken pool heap Pool.set_buffers Pool.buffers
           Pool.isReleased Chan.queue Chan.cap].
      split; [exact Hr|]. split; [exact Hcap|]. split.
      * intros a' Ha'. apply Hsub. apply elem_of_cons. now right.
      * intros a' Ha' Hnot. unfold inUse_at. cbn [state_of taken heap].
        destruct (decide (a' = a)) as [->|Hne].
        -- exists (Buffer.set_inUse 1 b). split; [|reflexivity].
           apply list_lookup_insert_eq. eapply lookup_lt_Some; eauto.
        -- destruct (Hheld a' Ha') as (b' & Hb' & Hu').
           { intros Hin. apply elem_of_cons in Hin as [?|?]; contradiction. }
           exists b'. split; [|exact Hu'].
           rewrite list_lookup_insert_ne; auto.
  - (* Release *)
    cbn in Hop. apply Nat.leb_le in Hop.
    assert (Pool.isReleased (pool s) <> 1 /\
            free_cap s = Z.of_nat n /\
            (forall a, a ∈ free_list s -> a ∈ seq base n) /\
            (forall a, a ∈ seq base n -> a ∉ free_list s -> inUse_at s a 1))
      as Hsame by auto.
    destruct (heap s !! a) as [b|] eqn:Hb.
    2:{ unfold Buffer_Release, bind, load. rewrite Hb. exact Hsame. }
    destruct (Z.eq_dec (Buffer.inUse b) 1) as [Hu|Hu].
    2:{ rewrite (Buffer_Release_not_owned s a b); auto. }
    assert (a < length (heap s))%nat as Hlt
      by (eapply lookup_lt_Some; eauto).
    assert (a ∈ seq base n) as HaF by (apply elem_of_seq; lia).
    pose proof Hwf as (_ & _ & H3 & H4).
    assert (a ∉ free_list s) as Hnotin.
    { intros Hin. destruct (H4 a Hin) as (b0 & Hb0 & Hu0). congruence. }
    unfold free_cap, free_list in *.
    destruct (Pool.buffers (pool s)) as [ch|] eqn:Hc.
    2:{ destruct n; [apply elem_of_nil in HaF; contradiction | lia]. }
    destruct (wf_open s ch Hwf Hc Hr) as (Hcl & _).
    destruct H3 as (_ & Hnd & _).
    assert (length (a :: Chan.queue ch) <= length (seq base n))%nat as Hle.
    { apply submseteq_length, NoDup_submseteq.
      - apply NoDup_cons. auto.
      - intros x Hx. apply elem_of_cons in Hx as [->|Hx]; auto. }
    rewrite length_seq in Hle. cbn [length] in Hle.
    rewrite (Buffer_Release_ok s a b ch); auto; [|lia].
    cbn [state_of pool heap Pool.set_buffers Pool.buffers Pool.isReleased
         Chan.queue Chan.cap].
    split; [exact Hr|]. split; [exact Hcap|]. split.
    + intros a' Ha'. apply elem_of_app in Ha' as [Ha'|Ha']; auto.
      apply list_elem_of_singleton in Ha' as ->. exact HaF.
    + intros a' Ha' Hnot.
      destruct (Hheld a' Ha') as (b' & Hb' & Hu').
      { intros Hin. apply Hnot. apply elem_of_app. now left. }
      exists b'. split; [|exact Hu']. cbn [state_of heap].
      rewrite list_lookup_insert_ne; auto.
      intros ->. apply Hnot. apply elem_of_app. right.
      now apply list_elem_of_singleton.
Qed.

Lemma traffic_run base n ops : forall s,
  wf s ->
  Pool.isReleased (pool s) <> 1 ->
  free_cap s = Z.of_nat n ->
  length (heap s) = (base + n)%nat ->
  (forall a, a ∈ free_list s -> a ∈ seq base n) ->
  (forall a, a ∈ seq base n -> a ∉ free_list s -> inUse_at s a 1) ->
  forallb (traffic base) ops = true ->
  wf (run ops s) /\
  (forall a, a ∈ free_list (run ops s) -> a ∈ seq base n) /\
  (forall a, a ∈ seq base n -> a ∉ free_list (run ops s) ->
             inUse_at (run ops s) a 1).
Proof.
  induction ops as [|op ops IH]; intros s Hwf Hr Hcap Hlen Hsub Hheld Hops.
  { cbn. auto. }
  cbn [forallb] in Hops. apply andb_prop in Hops as [Hop Hops].
  destruct (traffic_step base n op s Hwf Hr Hcap Hlen Hsub Hheld Hop)
    as (Hr' & Hcap' & Hsub' & Hheld').
  cbn [run foldl]. fold (run ops (step op s)).
  apply IH; auto.
  - apply wf_step, Hwf.
  - rewrite (traffic_heap_length base); auto.
Qed.

(** X12. No buffer is lost or duplicated by acquire/release traffic: after
    a successful [Init(count, size)] in a reachable state, and any calls of
    [Acquire], of [Release] on buffers of this generation and of
    [uses_buffer], each of the [count] buffers is either in the free list
    and marked free, or out of it and marked in use; the free list holds
    nothing else and nothing twice; and [Available] plus the number of
    buffers held is [count]. *)
Theorem no_buffer_lost s0 count size ops :
  reachable s0 ->
  Pool.isReleased (pool s0) <> 1 ->
  0 < count -> 0 < size ->
  let base := length (heap s0) in
  let gen := seq base (Z.to_nat count) in
  forallb (traffic base) ops = true ->
  let s := run ops (state_of (Init count size s0)) in
  NoDup (free_list s) /\
  (forall a, a ∈ free_list s -> a ∈ gen) /\
  (forall a, a ∈ gen ->
     (a ∈ free_list s /\ inUse_at s a 0) \/
     ((a ∉ free_list s) /\ inUse_at s a 1)) /\
  Available s + Z.of_nat (length (filter (fun a => a ∉ free_list s) gen))
  = count.
Proof.
  intros Hreach Hr Hc Hsz base gen Hops s.
  pose proof (reachable_wf s0 Hreach) as Hwf0.
  assert (wf (initialized s0 count size)) as Hwf1
    by (apply wf_initialized; auto).
  subst s. rewrite Init_ok by auto. cbn [state_of].
  destruct (traffic_run base (Z.to_nat count) ops
              (initialized s0 count size)) as (Hwf & Hsub & Hheld); auto.
  { unfold free_cap. cbn. lia. }
  { cbn [initialized heap]. rewrite length_app, length_replicate.
    reflexivity. }
  { intros a Ha Hnot. exfalso. apply Hnot. exact Ha. }
  set (s := run ops (initialized s0 count size)) in *.
  assert (NoDup (free_list s)) as Hnd.
  { destruct Hwf as (_ & _ & H3 & _). unfold free_list.
    destruct (Pool.buffers (pool s)) as [ch|]; [|apply NoDup_nil_2].
    now destruct H3 as (_ & ? & _). }
  split; [exact Hnd|]. split; [exact Hsub|]. split.
  { intros a Ha. destruct (decide (a ∈ free_list s)) as [Hin|Hnot].
    - left. split; auto. destruct Hwf as (_ & _ & _ & H4). auto.
    - right. auto. }
  rewrite wf_Available by auto.
  assert (free_list s ≡ₚ filter (fun a => a ∈ free_list s) gen) as Hperm.
  { apply NoDup_Permutation; auto.
    - apply NoDup_filter, NoDup_seq.
    - intros a. rewrite list_elem_of_filter. split; [auto | tauto]. }
  pose proof (filter_app_complement (fun a => a ∈ free_list s) gen) as Hsplit.
  apply Permutation_length in Hsplit. apply Permutation_length in Hperm.
  rewrite length_app in Hsplit. subst gen. rewrite length_seq in Hsplit.
  lia.
Qed.

End Model.

Arguments Ok {T A} s a.
Arguments Panic {T A} msg s.
Arguments Block {T A} s.

(** ** The claims on pools of [int] buffers

    Here [T] is Go's [int], with zero value 0, as in the package's tests. *)

(** C1 on [Init(5,10)]: acquire, write, [SetLength(4)], release. *)
Lemma acquire_release_roundtrip_witness :
  let s := step 0 (OpInit 5 10) NewPool in
  let s1 := state_of (Acquire s) in
  let s1' := run 0 [OpWrite 0%nat 3 42; OpSetLength 0%nat 4] s1 in
  exists s2,
    Buffer_Release 0%nat s1' = Ok s2 tt /\
    Available s2 = Available s /\
    Buffer_GetLength 0%nat s2 = Ok s2 0.
Proof.
  intros s s1 s1'.
  apply (proj2 (acquire_release_roundtrip 0 s
                  (reach_step 0 _ (OpInit 5 10) (reach_new 0))
                  eq_refl eq_refl) 0%nat s1
           [OpWrite 0%nat 3 42; OpSetLength 0%nat 4]).
  - reflexivity.
  - reflexivity.
Defined.

(** C2 on the fresh pool with [Init(5,10)]. *)
Lemma Init_postcondition_witness :
  exists s',
    Init 0 5 10 NewPool = Ok s' None /\
    Available s' = 5 /\
    Z.of_nat (length (free_list s')) = 5.
Proof.
  destruct (Init_postcondition 0 NewPool 5 10) as (s' & H1 & H2 & _ & H3 & _).
  - simpl. lia.
  - lia.
  - lia.
  - exists s'. auto.
Defined.

(** C5 on [Init(1,10)]: acquire, release, release. *)
Lemma double_release_panics_witness :
  let s := step 0 (OpInit 1 10) NewPool in
  let s1 := state_of (Acquire s) in
  exists s2,
    Buffer_Release 0%nat s1 = Ok s2 tt /\
    Buffer_Release 0%nat s2
    = Panic "Buffer already released or was never acquired" s2.
Proof.
  intros s s1.
  destruct (double_release_panics 0 s 0%nat s1
              (reach_step 0 _ (OpInit 1 10) (reach_new 0)) eq_refl
              [] eq_refl)
    as (s2 & H1 & H2).
  exists s2. split; [exact H1|]. apply (H2 []). simpl. exact I.
Defined.

(** C6 on [Init(2,10)]: acquire, [Reset], release. *)
Lemma release_orphan_after_Reset_witness :
  let s := step 0 (OpInit 2 10) NewPool in
  let s1 := state_of (Acquire s) in
  exists s2 s3,
    Reset 0 s1 = Ok s2 tt /\
    Available s2 = 2 /\
    Buffer_Release 0%nat s2
    = Panic "Attempting to return a buffer to a full pool" s3.
Proof.
  intros s s1.
  destruct (release_orphan_after_Reset 0 s 0%nat s1
              (reach_step 0 _ (OpInit 2 10) (reach_new 0)) eq_refl)
    as (s2 & H1 & H2 & _ & _ & H3).
  destruct (H3 [] eq_refl) as (s3 & H4).
  exists s2, s3. auto.
Defined.

(** C7 on [Init(5,10)], [Release], and then [Init(3,3)], [Reset],
    [Acquire]. *)
Lemma released_pool_inert_witness :
  let s := step 0 (OpInit 5 10) NewPool in
  let s' := run 0 [OpInit 3 3; OpReset; OpAcquire]
              (state_of (Pool_Release s)) in
  Pool.isReleased (pool s') = 1 /\
  Acquire s' = Ok s' None /\
  BufferChan s' = Ok s' None /\
  Available s' = 0 /\
  Reset 0 s' = Ok s' tt /\
  Pool_Release s' = Ok s' tt.
Proof.
  apply (released_pool_inert 0 (step 0 (OpInit 5 10) NewPool)
           [OpInit 3 3; OpReset; OpAcquire]
           (reach_step 0 _ (OpInit 5 10) (reach_new 0))).
Defined.

(** C9 on [Init(0,10)] of the fresh pool and on [Init(5,10)] of a released
    pool. *)
Lemma Init_error_contract_witness :
  Init 0 0 10 NewPool
  = Ok NewPool (Some "invalid buffer count or size"%string) /\
  Available (state_of (Init 0 0 10 NewPool)) = 0 /\
  let s := run 0 [OpInit 5 10; OpPoolRelease] NewPool in
  Init 0 5 10 s = Ok s (Some "pool has been released"%string).
Proof.
  split; [|split].
  - apply (proj1 (Init_error_contract 0 NewPool 0 10)). left. lia.
  - apply (proj1 (Init_error_contract 0 NewPool 0 10)). left. lia.
  - intros s. apply (proj2 (Init_error_contract 0 s 5 10)). reflexivity.
Defined.

(** C10 as amended, on [Init(1,10)], [Acquire], [Init(3,4)]. *)
Lemma reInit_replaces_free_list_witness :
  let s := run 0 [OpInit 1 10; OpAcquire] NewPool in
  exists s',
    Init 0 3 4 s = Ok s' None /\
    free_list s' = [1; 2; 3]%nat /\
    Available s' = 3 /\
    (0%nat ∉ free_list s').
Proof.
  intros s.
  destruct (reInit_replaces_free_list 0 s 3 4)
    as (s' & H1 & H2 & _ & _ & _ & H3 & H4).
  - reflexivity.
  - simpl. lia.
  - lia.
  - lia.
  - exists s'. split; [exact H1|]. split; [exact H2|]. split; [exact H3|].
    apply (H4 0%nat (Buffer.mk (replicate 10 0) 0 1)). reflexivity.
Defined.

(** C10 as stated fails: with [Init(1,10)], [Acquire] (buffer 0), a second
    [Init(1,10)], [Acquire] (the new buffer 1) and then [Release] of
    buffer 0, the buffer acquired before the second [Init] is enqueued into
    the new free list. *)
Lemma reInit_orphan_reclaimed :
  let s := step 0 (OpInit 1 10) NewPool in
  let s1 := state_of (Acquire s) in
  let s2 := state_of (Init 0 1 10 s1) in
  let s3 := state_of (Acquire s2) in
  let s4 := state_of (Buffer_Release 0%nat s3) in
  Acquire s = Ok s1 (Some 0%nat) /\
  Init 0 1 10 s1 = Ok s2 None /\
  Acquire s2 = Ok s3 (Some 1%nat) /\
  Buffer_Release 0%nat s3 = Ok s4 tt /\
  free_list s4 = [0%nat] /\
  ~ orphans_never_reclaimed 0.
Proof.
  intros s s1 s2 s3 s4. repeat split.
  intros Hnever.
  apply (Hnever s 0%nat s1 1 10 s2 [OpAcquire; OpBufferRelease 0%nat]).
  - exact (reach_step 0 _ (OpInit 1 10) (reach_new 0)).
  - reflexivity.
  - reflexivity.
  - vm_compute. left.
Qed.

(** C3 fails on the code: [SetLength] clamps only from above.  After
    [Init(1,10)] and [Acquire], [SetLength(-1)] on the acquired buffer
    returns and leaves [GetLength() = -1], outside [[0, 10]]; [GetValidData]
    then panics on the slice bounds. *)
Theorem SetLength_negative_leaves_range :
  let s := run 0 [OpInit 1 10; OpAcquire] NewPool in
  let s' := state_of (Buffer_SetLength (-1) 0%nat s) in
  reachable 0 s' /\
  Buffer_SetLength (-1) 0%nat s = Ok s' tt /\
  Buffer_GetLength 0%nat s' = Ok s' (-1) /\
  Buffer_GetFullData 0%nat s' = Ok s' (replicate 10 0) /\
  Buffer_GetValidData 0%nat s'
  = Panic "slice bounds out of range" s'.
Proof.
  intros s s'. repeat split.
  exact (reach_step 0 _ (OpSetLength 0%nat (-1))
           (reach_step 0 _ OpAcquire
              (reach_step 0 _ (OpInit 1 10) (reach_new 0)))).
Qed.

(** C4 fails on the code: when the buffer dequeued by [Acquire] is marked
    in use, the [put] that should return it to the free list panics on that
    same flag, so [Acquire] panics, with the buffer out of the free list;
    no retry takes place, whatever the fuel. *)
Theorem Acquire_retry_panics :
  let s' := mkState [Buffer.mk (replicate 10 0) 0 1]
              (Pool.mk (Some (Chan.mk 1 [] false)) 10 1 true 0) O in
  Acquire (faulty_pool 0)
  = Panic "Attempting to return a buffer that is still in use" s' /\
  forall fuel,
    Acquire_rec (S fuel) (faulty_pool 0)
    = Some (Panic "Attempting to return a buffer that is still in use" s').
Proof.
  intros s'. split; [reflexivity|].
  intros fuel. rewrite Acquire_rec_fuel. reflexivity.
Qed.

(** C8 fails on the code: on a pool that was constructed but never
    initialized (also after an [Init] that was refused), [Pool.Release]
    sets the released flag and then panics in [close] on the nil channel.
    A second call is a no-op. *)
Theorem Pool_Release_uninitialized_panics :
  let s' := mkState (T:=Z) [] (Pool.mk None 0 0 false 1) O in
  Pool_Release NewPool = Panic "close of nil channel" s' /\
  Pool_Release (state_of (Init 0 0 10 NewPool))
  = Panic "close of nil channel" s' /\
  Pool_Release s' = Ok s' tt.
Proof.
  intros s'. repeat split.
Qed.

(** ** The length header of package simplebuf *)

Lemma SimpleBuf_to_byte x : 0 <= x -> SimpleBuf.to_byte x = x mod 256.
Proof.
  intros Hx. unfold SimpleBuf.to_byte. change 255 with (Z.ones 8).
  rewrite Z.land_ones by lia. reflexivity.
Qed.

(** The value [GetLength] reads from four header bytes. *)
Lemma SimpleBuf_GetLength_bytes b0 b1 b2 b3 rest :
  SimpleBuf.is_byte b0 -> SimpleBuf.is_byte b1 ->
  SimpleBuf.is_byte b2 -> SimpleBuf.is_byte b3 ->
  SimpleBuf.GetLength (b0 :: b1 :: b2 :: b3 :: rest)
  = Some (b0 + b1 * 2 ^ 8 + b2 * 2 ^ 16 + b3 * 2 ^ 24).
Proof.
  unfold SimpleBuf.is_byte, SimpleBuf.GetLength, SimpleBuf.uint.
  intros H0 H1 H2 H3. rewrite !Z.shiftl_mul_pow2 by lia.
  change (2 ^ 8) with 256. change (2 ^ 16) with 65536.
  change (2 ^ 24) with 16777216.
  change (2 ^ 64) with 18446744073709551616.
  f_equal.
  rewrite (Z.mod_small (b1 * 256)), (Z.mod_small (b2 * 65536)),
    (Z.mod_small (b3 * 16777216)) by lia.
  rewrite (Z.mod_small (b0 + b1 * 256)) by lia.
  rewrite (Z.mod_small (b0 + b1 * 256 + b2 * 65536)) by lia.
  apply Z.mod_small. lia.
Qed.

(** X13. Length header round trip: on a slice of at least 4 bytes
    [SetLength(buf, n)] returns, keeps the length of the slice and the
    data after the header, and [GetLength] then reads [n] modulo [2^32]:
    [n] itself when it fits in 32 bits. *)
Theorem SimpleBuf_header_roundtrip buf n :
  (4 <= length buf)%nat ->
  0 <= n < 2 ^ 64 ->
  exists buf',
    SimpleBuf.SetLength buf n = (buf', true) /\
    length buf' = length buf /\
    SimpleBuf.GetLength buf' = Some (n mod 2 ^ 32) /\
    (n < 2 ^ 32 -> SimpleBuf.GetLength buf' = Some n) /\
    SimpleBuf.GetDataSlice buf' = Some (drop 4 buf) /\
    SimpleBuf.GetDataSlice buf = Some (drop 4 buf).
Proof.
  intros Hlen Hn.
  destruct buf as [|b0 [|b1 [|b2 [|b3 rest]]]]; cbn [length] in Hlen;
    try lia.
  eexists. split; [reflexivity|]. split; [reflexivity|].
  assert (SimpleBuf.GetLength
            (SimpleBuf.to_byte n :: SimpleBuf.to_byte (Z.shiftr n 8)
             :: SimpleBuf.to_byte (Z.shiftr n 16)
             :: SimpleBuf.to_byte (Z.shiftr n 24) :: rest)
          = Some (n mod 2 ^ 32)) as Hget.
  { assert (0 <= Z.shiftr n 8 /\ 0 <= Z.shiftr n 16 /\ 0 <= Z.shiftr n 24)
      as (H8 & H16 & H24) by (rewrite !Z.shiftr_nonneg; lia).
    rewrite SimpleBuf_GetLength_bytes;
      try (rewrite SimpleBuf_to_byte by lia; unfold SimpleBuf.is_byte;
           apply Z.mod_pos_bound; lia).
    rewrite !SimpleBuf_to_byte by lia.
    rewrite !Z.shiftr_div_pow2 by lia. f_equal.
    change (2 ^ 8) with 256. change (2 ^ 16) with 65536.
    change (2 ^ 24) with 16777216. change (2 ^ 32) with 4294967296.
    Z.div_mod_to_equations. lia. }
  split; [exact Hget|]. split.
  { intros Hsmall. etransitivity; [exact Hget|].
    f_equal. apply Z.mod_small. split; [lia | exact Hsmall]. }
  split; reflexivity.
Qed.

(** X14. What [GetLength] returns: on fewer than 4 bytes it panics; on a
    slice of bytes with at least 4 it returns a value below [2^32] that
    depends on the first four bytes only. *)
Theorem SimpleBuf_GetLength_range buf :
  Forall SimpleBuf.is_byte buf ->
  ((length buf < 4)%nat -> SimpleBuf.GetLength buf = None) /\
  ((4 <= length buf)%nat ->
   exists n,
     SimpleBuf.GetLength buf = Some n /\
     0 <= n < 2 ^ 32 /\
     SimpleBuf.GetLength (take 4 buf) = Some n).
Proof.
  intros Hbytes. split.
  - intros Hlen.
    destruct buf as [|b0 [|b1 [|b2 [|b3 rest]]]]; cbn [length] in Hlen;
      try lia; reflexivity.
  - intros Hlen.
    destruct buf as [|b0 [|b1 [|b2 [|b3 rest]]]]; cbn [length] in Hlen;
      try lia.
    apply Forall_cons in Hbytes as [H0 Hbytes].
    apply Forall_cons in Hbytes as [H1 Hbytes].
    apply Forall_cons in Hbytes as [H2 Hbytes].
    apply Forall_cons in Hbytes as [H3 _].
    eexists. split; [now apply SimpleBuf_GetLength_bytes|].
    split; [unfold SimpleBuf.is_byte in *; lia|].
    cbn [take]. now apply SimpleBuf_GetLength_bytes.
Qed.

(** X15. A short slice: on fewer than 4 bytes [SetLength] panics on the
    first index out of range, after it has stored the low bytes of [len]
    in the bytes that exist; [GetDataSlice] panics on the slice bounds. *)
Theorem SimpleBuf_short_slice buf n :
  (length buf < 4)%nat ->
  SimpleBuf.SetLength buf n
  = (take (length buf)
       [SimpleBuf.to_byte n; SimpleBuf.to_byte (Z.shiftr n 8);
        SimpleBuf.to_byte (Z.shiftr n 16); SimpleBuf.to_byte (Z.shiftr n 24)],
     false) /\
  SimpleBuf.GetDataSlice buf = None.
Proof.
  intros Hlen.
  destruct buf as [|b0 [|b1 [|b2 [|b3 rest]]]]; cbn [length] in Hlen;
    try lia; split; reflexivity.
Qed.

Lemma SimpleBuf_loop n size b : forall acc,
  SimpleBuf.make_bytes (SimpleBuf.int_add SimpleBuf.sizeOfDescription size)
  = Some b ->
  SimpleBuf.InitBufferList_loop n size acc = Some (acc ++ replicate n b).
Proof.
  induction n as [|n IH]; intros acc Hb; cbn [SimpleBuf.InitBufferList_loop].
  - now rewrite app_nil_r.
  - rewrite Hb, IH by auto. now rewrite <- app_assoc.
Qed.

(** X16. [InitBufferList]: for a buffer size from 0 up to the largest that
    does not overflow the header sum, it returns [bufferCount] slices (none
    for a count of 0 or less), each of [4 + bufferSize] zero bytes, whose
    header reads length 0 and whose data part has [bufferSize] bytes.  For
    a positive count and a size below -4 it panics in [make]. *)
Theorem SimpleBuf_InitBufferList_spec bufferSize bufferCount :
  (0 <= bufferSize < 2 ^ 63 - 4 ->
   exists l,
     SimpleBuf.InitBufferList bufferSize bufferCount = Some l /\
     length l = Z.to_nat bufferCount /\
     forall buf, buf ∈ l ->
       buf = replicate (Z.to_nat (4 + bufferSize)) 0 /\
       SimpleBuf.GetLength buf = Some 0 /\
       SimpleBuf.GetDataSlice buf
       = Some (replicate (Z.to_nat bufferSize) 0)) /\
  (- 2 ^ 63 <= bufferSize < -4 -> 0 < bufferCount ->
   SimpleBuf.InitBufferList bufferSize bufferCount = None).
Proof.
  split.
  - intros Hsize.
    assert (SimpleBuf.int_add SimpleBuf.sizeOfDescription bufferSize
            = 4 + bufferSize) as Hadd.
    { unfold SimpleBuf.int_add, SimpleBuf.sizeOfDescription.
      rewrite Z.mod_small; lia. }
    exists (replicate (Z.to_nat bufferCount)
              (replicate (Z.to_nat (4 + bufferSize)) 0)).
    split.
    { unfold SimpleBuf.InitBufferList.
      rewrite (SimpleBuf_loop _ _ (replicate (Z.to_nat (4 + bufferSize)) 0));
        [reflexivity|].
      rewrite Hadd. unfold SimpleBuf.make_bytes.
      destruct (Z.ltb_spec (4 + bufferSize) 0); [lia | reflexivity]. }
    split; [apply length_replicate|].
    intros buf Hin. apply elem_of_replicate in Hin as [-> _].
    split; [reflexivity|].
    replace (Z.to_nat (4 + bufferSize)) with (4 + Z.to_nat bufferSize)%nat
      by lia.
    split; reflexivity.
  - intros Hsize Hcount.
    unfold SimpleBuf.InitBufferList.
    destruct (Z.to_nat bufferCount) as [|n] eqn:Hn; [lia|].
    cbn [SimpleBuf.InitBufferList_loop].
    unfold SimpleBuf.int_add, SimpleBuf.sizeOfDescription,
      SimpleBuf.make_bytes.
    rewrite Z.mod_small by lia.
    destruct (Z.ltb_spec (4 + bufferSize + 2 ^ 63 - 2 ^ 63) 0); [|lia].
    reflexivity.
Qed.

(** ** The further properties on pools of [int] buffers *)

Lemma reachable_run {T : Type} (zero : T) ops : forall s,
  reachable zero s -> reachable zero (run zero ops s).
Proof.
  induction ops as [|op ops IH]; intros s Hs; [exact Hs|].
  apply (IH (step zero op s)). now apply reach_step.
Qed.

(** X1 on a buffer that is written, set to length 2, released and acquired
    again. *)
Lemma buffer_capacity_and_data_kept_witness :
  let s := run 0 [OpInit 1 3; OpAcquire; OpWrite 0%nat 1 7] NewPool in
  exists b',
    heap (run 0 [OpSetLength 0%nat 2; OpBufferRelease 0%nat; OpAcquire] s)
      !! 0%nat = Some b' /\
    Buffer.capacity b' = 3 /\
    Buffer.data b' = [0; 7; 0].
Proof.
  intros s.
  destruct (buffer_capacity_and_data_kept 0
              [OpSetLength 0%nat 2; OpBufferRelease 0%nat; OpAcquire]
              s 0%nat (Buffer.mk [0; 7; 0] 0 1) eq_refl)
    as (b' & H1 & H2 & H3).
  exists b'. split; [exact H1|]. split; [exact H2|]. apply H3. reflexivity.
Defined.

(** X2 after [SetLength(7)] on a buffer of capacity 3. *)
Lemma length_within_capacity_witness :
  let b := Buffer.mk [0; 0; 0] 3 1 in
  Buffer.length b <= Buffer.capacity b /\ 0 <= Buffer.length b.
Proof.
  intros b.
  destruct (length_within_capacity 0
              [OpInit 1 3; OpAcquire; OpSetLength 0%nat 7] 0%nat b eq_refl)
    as [H1 H2].
  split; [exact H1|]. apply H2. reflexivity.
Defined.

(** X3 with [SetLength(7)] on a buffer of capacity 3. *)
Lemma SetLength_then_read_witness :
  let s := run 0 [OpInit 1 3; OpAcquire] NewPool in
  let s' := state_of (Buffer_SetLength 7 0%nat s) in
  Buffer_GetLength 0%nat s' = Ok s' 3 /\
  Buffer_GetValidData 0%nat s' = Ok s' [0; 0; 0].
Proof.
  intros s s'.
  destruct (SetLength_then_read s 0%nat (Buffer.mk [0; 0; 0] 0 1) 7 eq_refl)
    as (_ & H1 & H2 & _).
  - lia.
  - split; [exact H1 | exact H2].
Defined.

(** X4 with [data[1] = 7] and [SetLength(2)] on a buffer of capacity 3. *)
Lemma write_then_read_witness :
  let s := run 0 [OpInit 1 3; OpAcquire] NewPool in
  let s1 := state_of (Buffer_write 0%nat 1 7 s) in
  let s2 := state_of (Buffer_SetLength 2 0%nat s1) in
  (exists d, Buffer_GetValidData 0%nat s2 = Ok s2 d /\
             d !! 1%nat = Some 7) /\
  Buffer_write 0%nat 3 7 s = Panic "index out of range" s.
Proof.
  intros s s1 s2.
  destruct (write_then_read s 0%nat (Buffer.mk [0; 0; 0] 0 1) 1 7 eq_refl)
    as [Hin _].
  destruct (write_then_read s 0%nat (Buffer.mk [0; 0; 0] 0 1) 3 7 eq_refl)
    as [_ Hout].
  split.
  - destruct (Hin 2) as (d & H1 & _ & H2 & _).
    + lia.
    + unfold Buffer.capacity. simpl. lia.
    + exists d. split; [exact H1 | exact H2].
  - apply Hout. right. unfold Buffer.capacity. simpl. lia.
Defined.

(** X5 after [Init(3,4)] and one [Acquire]. *)
Lemma ownership_invariant_witness :
  let s := run 0 [OpInit 3 4; OpAcquire] NewPool in
  NoDup (free_list s) /\ 0 <= Available s <= 3.
Proof.
  intros s.
  destruct (ownership_invariant 0 s (reachable_run 0 _ _ (reach_new 0)))
    as (H1 & _ & _ & H2).
  split; [exact H1 | exact H2].
Defined.

(** X6 after [Init(3,4)]. *)
Lemma Acquire_fifo_witness :
  let s := run 0 [OpInit 3 4] NewPool in
  exists a s1,
    Acquire s = Ok s1 (Some a) /\ Available s1 = Available s - 1.
Proof.
  intros s.
  destruct (proj2 (Acquire_fifo 0 s (reachable_run 0 _ _ (reach_new 0))))
    as (a & q & b & s1 & _ & _ & H1 & _ & H2 & _).
  - reflexivity.
  - exists a, s1. split; [exact H1 | exact H2].
Defined.

(** X7 after [Init(3,4)]: five calls of [Acquire]. *)
Lemma acquire_until_exhausted_witness :
  let s := run 0 [OpInit 3 4] NewPool in
  exists s',
    acquire_many (length (free_list s) + 2) s
    = Ok s' ((Some <$> free_list s) ++ replicate 2 None) /\
    Available s' = 0.
Proof.
  intros s.
  destruct (acquire_until_exhausted 0 s 2
              (reachable_run 0 _ _ (reach_new 0)))
    as (s' & H1 & H2 & _).
  exists s'. split; [exact H1 | exact H2].
Defined.

(** X8 after [Init(3,4)]: two buffers acquired and released. *)
Lemma acquire_release_cycle_witness :
  let s := run 0 [OpInit 3 4] NewPool in
  exists s1 s2,
    acquire_many 2 s = Ok s1 (Some <$> take 2 (free_list s)) /\
    release_all (take 2 (free_list s)) s1 = Ok s2 tt /\
    Available s2 = Available s.
Proof.
  intros s.
  destruct (acquire_release_cycle 0 s 2
              (reachable_run 0 _ _ (reach_new 0)))
    as (s1 & s2 & H1 & _ & H2 & H3 & _).
  - simpl. lia.
  - exists s1, s2. split; [exact H1|]. split; [exact H2 | exact H3].
Defined.

(** X9 after [Init(2,4)] and one [Acquire]. *)
Lemma Reset_postcondition_witness :
  let s := run 0 [OpInit 2 4; OpAcquire] NewPool in
  exists s', Reset 0 s = Ok s' tt /\ Available s' = 2.
Proof.
  intros s.
  destruct (proj2 (Reset_postcondition 0 s
                     (reachable_run 0 _ _ (reach_new 0))))
    as (s' & H1 & H2 & _).
  - reflexivity.
  - exists s'. split; [exact H1 | exact H2].
Defined.

(** X10 after [Init(2,4)] and one [Acquire]. *)
Lemma Pool_Release_initialized_witness :
  let s := run 0 [OpInit 2 4; OpAcquire] NewPool in
  exists s', Pool_Release s = Ok s' tt /\ Available s' = 0.
Proof.
  intros s.
  destruct (Pool_Release_initialized 0 s
              (reachable_run 0 _ _ (reach_new 0)))
    as (ch & s' & _ & H1 & _ & _ & H2 & _).
  - reflexivity.
  - exists s'. split; [exact H1 | exact H2].
Defined.

(** X11 after [Init(2,4)] and one [Acquire]. *)
Lemma Buffer_Release_after_Pool_Release_witness :
  let s := run 0 [OpInit 2 4; OpAcquire] NewPool in
  let s1 := state_of (Pool_Release s) in
  exists s2, Buffer_Release 0%nat s1 = Ok s2 tt /\ Available s2 = 0.
Proof.
  intros s s1.
  destruct (Buffer_Release_after_Pool_Release 0 s 0%nat
              (reachable_run 0 _ _ (reach_new 0)))
    as (s2 & H1 & _ & _ & H2 & _).
  - exists (Buffer.mk [0; 0; 0; 0] 0 1). split; reflexivity.
  - exists s2. split; [exact H1 | exact H2].
Defined.

(** X12 on the fresh pool with [Init(3,4)]: two buffers acquired, one of
    them released. *)
Lemma no_buffer_lost_witness :
  let s := run 0 [OpAcquire; OpAcquire; OpBufferRelease 0%nat;
                  OpSetLength 1%nat 2]
             (state_of (Init 0 3 4 NewPool)) in
  NoDup (free_list s) /\
  Available s
  + Z.of_nat (length (filter (fun a => a ∉ free_list s) (seq 0 3))) = 3.
Proof.
  intros s.
  destruct (no_buffer_lost 0 NewPool 3 4
              [OpAcquire; OpAcquire; OpBufferRelease 0%nat;
               OpSetLength 1%nat 2] (reach_new 0))
    as (H1 & _ & _ & H2).
  - simpl. lia.
  - lia.
  - lia.
  - reflexivity.
  - split; [exact H1 | exact H2].
Defined.

(** X13 on a slice of six bytes with length 258. *)
Lemma SimpleBuf_header_roundtrip_witness :
  exists buf',
    SimpleBuf.SetLength [9; 9; 9; 9; 1; 2] 258 = (buf', true) /\
    SimpleBuf.GetLength buf' = Some 258.
Proof.
  destruct (SimpleBuf_header_roundtrip [9; 9; 9; 9; 1; 2] 258)
    as (buf' & H1 & _ & _ & H2 & _).
  - simpl. lia.
  - split; [lia | reflexivity].
  - exists buf'. split; [exact H1|]. apply H2. reflexivity.
Defined.

(** X14 on a slice of five bytes. *)
Lemma SimpleBuf_GetLength_range_witness :
  exists n, SimpleBuf.GetLength [1; 2; 0; 0; 5] = Some n /\ 0 <= n < 2 ^ 32.
Proof.
  destruct (SimpleBuf_GetLength_range [1; 2; 0; 0; 5]) as [_ H].
  - repeat constructor; unfold SimpleBuf.is_byte; lia.
  - destruct H as (n & H1 & H2 & _).
    + simpl. lia.
    + exists n. split; [exact H1 | exact H2].
Defined.

(** X15 on a slice of two bytes. *)
Lemma SimpleBuf_short_slice_witness :
  SimpleBuf.SetLength [5; 6] 258 = ([2; 1], false) /\
  SimpleBuf.GetDataSlice [5; 6] = None.
Proof.
  apply (SimpleBuf_short_slice [5; 6] 258). simpl. lia.
Defined.

(** X16 with two buffers of size 3. *)
Lemma SimpleBuf_InitBufferList_spec_witness :
  exists l,
    SimpleBuf.InitBufferList 3 2 = Some l /\ length l = 2%nat.
Proof.
  destruct (proj1 (SimpleBuf_InitBufferList_spec 3 2))
    as (l & H1 & H2 & _).
  - split; [lia | reflexivity].
  - exists l. split; [exact H1 | exact H2].
Defined.
